(** * Semantic analyzer of the BBFM model compiler

    Shallow embedding of [AST.h]/[AST.cpp], [SemanticAnalyzer.cpp] and
    [Driver::Phase1].  Names are kept from the C++ sources.  Recursive
    inheritance walks are written with an explicit fuel argument; the
    analyzer calls them with [length symbolTable + 2] steps, and the
    walk-termination theorem shows this fuel is never exhausted. *)

From Stdlib Require Import String List Bool ZArith Lia.
Import ListNotations.
Open Scope string_scope.
Open Scope list_scope.
Set Warnings "-register-all".

(* ------------------------------------------------------------------ *)
(** ** AST data model (AST.h) *)

Inductive PrimitiveType :=
| PT_STRING | PT_INT | PT_REAL | PT_BOOL
| PT_TIMESTAMP | PT_TIMESPAN | PT_DATE | PT_GUID.

(** [PrimitiveTypeSpec::TypeToString] *)
Definition TypeToString (t : PrimitiveType) : string :=
  match t with
  | PT_STRING => "String"
  | PT_INT => "Int"
  | PT_REAL => "Real"
  | PT_BOOL => "Bool"
  | PT_TIMESTAMP => "Timestamp"
  | PT_TIMESPAN => "Timespan"
  | PT_DATE => "Date"
  | PT_GUID => "Guid"
  end.

(** [TypeSpec]: either a [PrimitiveTypeSpec] or a [UserDefinedTypeSpec]. *)
Inductive TypeSpec :=
| PrimitiveTypeSpec (t : PrimitiveType)
| UserDefinedTypeSpec (typeName : string).

Definition IsPrimitive (ts : TypeSpec) : bool :=
  match ts with PrimitiveTypeSpec _ => true | _ => false end.
Definition IsUserDefined (ts : TypeSpec) : bool :=
  match ts with UserDefinedTypeSpec _ => true | _ => false end.

(** [Expression::Type] *)
Inductive ExpressionType :=
| INT | REAL | BOOL | STRING | TIMESTAMP | TIMESPAN | DATE | GUID | VOID | UNKNOWN.

Definition ExpressionType_eqb (a b : ExpressionType) : bool :=
  match a, b with
  | INT, INT | REAL, REAL | BOOL, BOOL | STRING, STRING
  | TIMESTAMP, TIMESTAMP | TIMESPAN, TIMESPAN | DATE, DATE
  | GUID, GUID | VOID, VOID | UNKNOWN, UNKNOWN => true
  | _, _ => false
  end.

(** [BinaryExpression::Op] and [UnaryExpression::Op] *)
Inductive BinOp :=
| ADD | SUB | MUL | DIV | MOD
| LT | GT | LE | GE | EQ | NE
| AND | OR.

Inductive UnOp := NEG | NOT.

(** A [LiteralExpression] is built by one of four constructors, which fix
    its [type_].  The real value is a [double]; its value plays no role in
    the analysis and is not represented. *)
Inductive Literal :=
| LitInt (v : Z)
| LitReal
| LitString (v : string)
| LitBool (v : bool).

(** [LiteralExpression::GetResultType] *)
Definition LiteralType (l : Literal) : ExpressionType :=
  match l with
  | LitInt _ => INT
  | LitReal => REAL
  | LitString _ => STRING
  | LitBool _ => BOOL
  end.

(** The expression node classes; children are non-null [unique_ptr]s. *)
Inductive Expression :=
| BinaryExpression (left : Expression) (op : BinOp) (right : Expression)
| UnaryExpression (op : UnOp) (operand : Expression)
| FieldReference (fieldName : string)
| MemberAccessExpression (object : Expression) (memberName : string)
| LiteralExpression (lit : Literal)
| FunctionCall (functionName : string) (arguments : list Expression)
| ParenthesizedExpression (expr : Expression).

(** [FunctionCall::GetResultType] *)
Definition FunctionCallResultType : ExpressionType := UNKNOWN.

(** [Modifier]: a [CardinalityModifier] (max = -1 is unbounded) or a
    [UniqueModifier]. *)
Inductive Modifier :=
| CardinalityModifier (minCardinality maxCardinality : Z)
| UniqueModifier.

(** [CardinalityModifier::IsArray] *)
Definition IsArray (minC maxC : Z) : bool :=
  (maxC =? -1)%Z || (maxC >? 1)%Z.

(** [CardinalityModifier::IsUnbounded] *)
Definition IsUnbounded (minC maxC : Z) : bool := (maxC =? -1)%Z.

(** [CardinalityModifier::IsOptional] *)
Definition IsOptional (minC maxC : Z) : bool := (minC =? 0)%Z.

(** [CardinalityModifier::IsMandatory] *)
Definition IsMandatory (minC maxC : Z) : bool := (minC >? 0)%Z.

Record Field := mkField {
  f_type : TypeSpec;
  f_name : string;
  f_modifiers : list Modifier;
  f_isStatic : bool;
  f_initializer : option Expression
}.

(** [Field::IsComputed] *)
Definition IsComputed (f : Field) : bool :=
  match f_initializer f with Some _ => true | None => false end.

(** [Field::GetCardinalityModifier]: the first cardinality modifier. *)
Fixpoint FirstCardinality (ms : list Modifier) : option (Z * Z) :=
  match ms with
  | [] => None
  | CardinalityModifier mn mx :: _ => Some (mn, mx)
  | UniqueModifier :: rest => FirstCardinality rest
  end.

Definition GetCardinalityModifier (f : Field) : option (Z * Z) :=
  FirstCardinality (f_modifiers f).

Record Invariant := mkInvariant {
  inv_name : string;
  inv_expression : option Expression
}.

Record ClassDeclaration := mkClass {
  c_name : string;
  c_baseType : string;   (** empty string if no explicit base *)
  c_fields : list Field;
  c_invariants : list Invariant
}.

(** [ClassDeclaration::HasExplicitBase] *)
Definition HasExplicitBase (c : ClassDeclaration) : bool :=
  negb (String.eqb (c_baseType c) "").

Record EnumDeclaration := mkEnum {
  e_name : string;
  e_values : list string
}.

Inductive Declaration :=
| EnumDecl (e : EnumDeclaration)
| ClassDecl (c : ClassDeclaration).

(** [AST]: the list of declarations. *)
Definition AST := list Declaration.

(* ------------------------------------------------------------------ *)
(** ** Symbol table (SemanticAnalyzer.h) *)

(** [TypeSymbol]: its [kind] together with the declaration it points to. *)
Inductive TypeSymbol :=
| SymPrimitive (name : string)
| SymEnum (e : EnumDeclaration)
| SymClass (c : ClassDeclaration).

Definition sym_name (s : TypeSymbol) : string :=
  match s with
  | SymPrimitive n => n
  | SymEnum e => e_name e
  | SymClass c => c_name c
  end.

Definition is_class_sym (s : TypeSymbol) : bool :=
  match s with SymClass _ => true | _ => false end.

(** [std::map<std::string, TypeSymbol>] as an association list; [insert]
    leaves an existing key untouched, so the first entry for a key is the
    one [find] returns. *)
Definition SymbolTable := list (string * TypeSymbol).

Fixpoint LookupType (tbl : SymbolTable) (n : string) : option TypeSymbol :=
  match tbl with
  | [] => None
  | (k, s) :: rest => if String.eqb k n then Some s else LookupType rest n
  end.

Definition TypeExists (tbl : SymbolTable) (n : string) : bool :=
  match LookupType tbl n with Some _ => true | None => false end.

Definition map_insert (tbl : SymbolTable) (k : string) (s : TypeSymbol) : SymbolTable :=
  if TypeExists tbl k then tbl else tbl ++ [(k, s)].

(** [RegisterPrimitiveTypes] *)
Definition PrimitiveNames : list string :=
  ["String"; "Int"; "Real"; "Bool"; "Timestamp"; "Timespan"; "Date"; "Guid"].

Definition RegisterPrimitiveTypes (tbl : SymbolTable) : SymbolTable :=
  fold_left (fun t n => map_insert t n (SymPrimitive n)) PrimitiveNames tbl.

(* ------------------------------------------------------------------ *)
(** ** [std::set<std::string>] as a sorted duplicate-free list *)

Definition StringSet := list string.

Fixpoint set_mem (x : string) (s : StringSet) : bool :=
  match s with
  | [] => false
  | y :: rest => String.eqb x y || set_mem x rest
  end.

Fixpoint set_insert (x : string) (s : StringSet) : StringSet :=
  match s with
  | [] => [x]
  | y :: rest =>
      match String.compare x y with
      | Lt => x :: s
      | Eq => s
      | Gt => y :: set_insert x rest
      end
  end.

(* ------------------------------------------------------------------ *)
(** ** Inheritance walks (each guarded by a visited-name set) *)

(** [HasInheritanceCycle(className, visited)]; [None] only when the fuel
    runs out.  The updated [visited] set is returned as the C++ code
    updates it in place. *)
Fixpoint HasInheritanceCycle_fuel (fuel : nat) (tbl : SymbolTable)
    (className : string) (visited : StringSet) : option (bool * StringSet) :=
  match fuel with
  | O => None
  | S fuel' =>
      if set_mem className visited then Some (true, visited)
      else
        match LookupType tbl className with
        | Some (SymClass c) =>
            if HasExplicitBase c
            then HasInheritanceCycle_fuel fuel' tbl (c_baseType c)
                   (set_insert className visited)
            else Some (false, visited)
        | _ => Some (false, visited)
        end
  end.

Definition walk_fuel (tbl : SymbolTable) : nat := S (S (length tbl)).

Definition HasInheritanceCycle (tbl : SymbolTable) (className : string)
    (visited : StringSet) : bool :=
  match HasInheritanceCycle_fuel (walk_fuel tbl) tbl className visited with
  | Some (b, _) => b
  | None => false
  end.

(** [GetAllFieldsHelper(classDecl, allFields, visited)]: base-first
    field list. *)
Fixpoint GetAllFieldsHelper_fuel (fuel : nat) (tbl : SymbolTable)
    (c : ClassDeclaration) (allFields : list Field) (visited : StringSet)
    : option (list Field * StringSet) :=
  match fuel with
  | O => None
  | S fuel' =>
      if set_mem (c_name c) visited then Some (allFields, visited)
      else
        let visited1 := set_insert (c_name c) visited in
        let fromBase :=
          if HasExplicitBase c then
            match LookupType tbl (c_baseType c) with
            | Some (SymClass b) => GetAllFieldsHelper_fuel fuel' tbl b allFields visited1
            | _ => Some (allFields, visited1)
            end
          else Some (allFields, visited1) in
        match fromBase with
        | Some (af, vis) => Some (af ++ c_fields c, vis)
        | None => None
        end
  end.

(** [GetAllFields] *)
Definition GetAllFields (tbl : SymbolTable) (c : ClassDeclaration) : list Field :=
  match GetAllFieldsHelper_fuel (walk_fuel tbl) tbl c [] [] with
  | Some (af, _) => af
  | None => []
  end.

(** [GetAllInvariantsHelper(classDecl, allInvariants, visited)] *)
Fixpoint GetAllInvariantsHelper_fuel (fuel : nat) (tbl : SymbolTable)
    (c : ClassDeclaration) (allInvariants : list Invariant) (visited : StringSet)
    : option (list Invariant * StringSet) :=
  match fuel with
  | O => None
  | S fuel' =>
      if set_mem (c_name c) visited then Some (allInvariants, visited)
      else
        let visited1 := set_insert (c_name c) visited in
        let fromBase :=
          if HasExplicitBase c then
            match LookupType tbl (c_baseType c) with
            | Some (SymClass b) => GetAllInvariantsHelper_fuel fuel' tbl b allInvariants visited1
            | _ => Some (allInvariants, visited1)
            end
          else Some (allInvariants, visited1) in
        match fromBase with
        | Some (ai, vis) => Some (ai ++ c_invariants c, vis)
        | None => None
        end
  end.

(** [GetAllInvariants] *)
Definition GetAllInvariants (tbl : SymbolTable) (c : ClassDeclaration) : list Invariant :=
  match GetAllInvariantsHelper_fuel (walk_fuel tbl) tbl c [] [] with
  | Some (ai, _) => ai
  | None => []
  end.

(* ------------------------------------------------------------------ *)
(** ** Field lookup and type inference *)

(** [GetFieldType]: the symbol of the first field (own or inherited) with
    the given name. *)
Fixpoint FindFieldType (tbl : SymbolTable) (fs : list Field) (fieldName : string)
    : option TypeSymbol :=
  match fs with
  | [] => None
  | f :: rest =>
      if String.eqb (f_name f) fieldName then
        match f_type f with
        | PrimitiveTypeSpec p => LookupType tbl (TypeToString p)
        | UserDefinedTypeSpec n => LookupType tbl n
        end
      else FindFieldType tbl rest fieldName
  end.

Definition GetFieldType (tbl : SymbolTable) (c : ClassDeclaration) (fieldName : string)
    : option TypeSymbol :=
  FindFieldType tbl (GetAllFields tbl c) fieldName.

(** [PrimitiveNameToExpressionType] *)
Definition PrimitiveNameToExpressionType (typeName : string) : ExpressionType :=
  if String.eqb "Int" typeName then INT
  else if String.eqb "Real" typeName then REAL
  else if String.eqb "String" typeName then STRING
  else if String.eqb "Bool" typeName then BOOL
  else if String.eqb "Timestamp" typeName then TIMESTAMP
  else if String.eqb "Timespan" typeName then TIMESPAN
  else if String.eqb "Guid" typeName then GUID
  else UNKNOWN.

Definition is_bool_op (op : BinOp) : bool :=
  match op with
  | LT | GT | LE | GE | EQ | NE | AND | OR => true
  | _ => false
  end.

(** The arithmetic branch of [InferExpressionType] for binary nodes. *)
Definition InferArithmetic (op : BinOp) (leftType rightType : ExpressionType) : ExpressionType :=
  if ExpressionType_eqb UNKNOWN leftType || ExpressionType_eqb UNKNOWN rightType then UNKNOWN
  else if ExpressionType_eqb REAL leftType || ExpressionType_eqb REAL rightType
       || ExpressionType_eqb TIMESTAMP leftType || ExpressionType_eqb TIMESTAMP rightType
       || ExpressionType_eqb TIMESPAN leftType || ExpressionType_eqb TIMESPAN rightType
  then REAL
  else if ExpressionType_eqb INT leftType && ExpressionType_eqb INT rightType then INT
  else if ExpressionType_eqb STRING leftType && ExpressionType_eqb STRING rightType
          && match op with ADD => true | _ => false end
  then STRING
  else UNKNOWN.

(** [InferExpressionType(expr, classDecl)] *)
Fixpoint InferExpressionType (tbl : SymbolTable) (e : Expression) (c : ClassDeclaration)
    : ExpressionType :=
  match e with
  | LiteralExpression l => LiteralType l
  | FieldReference n =>
      match GetFieldType tbl c n with
      | Some (SymPrimitive pn) => PrimitiveNameToExpressionType pn
      | Some _ => UNKNOWN
      | None => UNKNOWN
      end
  | MemberAccessExpression obj member =>
      match obj with
      | FieldReference on =>
          match GetFieldType tbl c on with
          | Some (SymClass oc) =>
              match GetFieldType tbl oc member with
              | Some (SymPrimitive mn) => PrimitiveNameToExpressionType mn
              | _ => UNKNOWN
              end
          | _ => UNKNOWN
          end
      | _ => UNKNOWN
      end
  | BinaryExpression l op r =>
      if is_bool_op op then BOOL
      else InferArithmetic op (InferExpressionType tbl l c) (InferExpressionType tbl r c)
  | UnaryExpression op x =>
      match op with
      | NOT => BOOL
      | NEG => InferExpressionType tbl x c
      end
  | ParenthesizedExpression x => InferExpressionType tbl x c
  | FunctionCall _ _ => FunctionCallResultType
  end.

(** [Expression::GetResultType], the types the AST nodes give
    themselves. [MemberAccessExpression::GetResultType] is declared in
    AST.h but its body is not in the sources, so it is a parameter. *)
Section ResultType.
Variable MemberAccessResultType : Expression -> string -> ExpressionType.

Fixpoint GetResultType (e : Expression) : ExpressionType :=
  match e with
  | BinaryExpression l op r =>
      if is_bool_op op then BOOL
      else
        let leftType := GetResultType l in
        let rightType := GetResultType r in
        if ExpressionType_eqb REAL leftType || ExpressionType_eqb REAL rightType
           || ExpressionType_eqb TIMESTAMP leftType || ExpressionType_eqb TIMESTAMP rightType
           || ExpressionType_eqb TIMESPAN leftType || ExpressionType_eqb TIMESPAN rightType
        then REAL
        else if ExpressionType_eqb INT leftType && ExpressionType_eqb INT rightType then INT
        else UNKNOWN
  | UnaryExpression op x =>
      match op with
      | NEG => GetResultType x
      | NOT => BOOL
      end
  | FieldReference _ => UNKNOWN
  | MemberAccessExpression o m => MemberAccessResultType o m
  | LiteralExpression l => LiteralType l
  | FunctionCall _ _ => UNKNOWN
  | ParenthesizedExpression x => GetResultType x
  end.
End ResultType.

(** [IsTypeCompatible(exprType, fieldTypeSpec)]; the field type spec is
    never null for a parsed field. *)
Definition IsTypeCompatible (exprType : ExpressionType) (fieldTypeSpec : TypeSpec) : bool :=
  match fieldTypeSpec with
  | UserDefinedTypeSpec _ => true
  | PrimitiveTypeSpec p =>
      let fieldType := PrimitiveNameToExpressionType (TypeToString p) in
      if ExpressionType_eqb exprType fieldType then true
      else if ExpressionType_eqb INT exprType && ExpressionType_eqb REAL fieldType then true
      else if ExpressionType_eqb REAL exprType
              && (ExpressionType_eqb TIMESTAMP fieldType || ExpressionType_eqb TIMESPAN fieldType)
      then true
      else if (ExpressionType_eqb TIMESTAMP exprType || ExpressionType_eqb TIMESPAN exprType)
              && ExpressionType_eqb REAL fieldType
      then true
      else false
  end.

(* ------------------------------------------------------------------ *)
(** ** Diagnostics and the analyzer state *)

(** One constructor per [ReportError] call site of [SemanticAnalyzer.cpp];
    the arguments are the names the message is built from. *)
Inductive Diagnostic :=
| DuplicateTypeName (name : string)
| UndefinedBaseType (cls base : string)
| InvalidBaseTypeKind (cls base : string)
| CircularInheritance (cls : string)
| UndefinedFieldType (field cls typeName : string)
| DuplicateField (field cls : string)
| InvariantMissingExpression (inv cls : string)
| InvariantUndefinedFieldReference (inv cls field : string)
| ComputedFeatureArrayNotAllowed (field cls : string)
| ComputedUndefinedFieldReference (field cls refField : string)
| MemberFieldNotFound (context field cls : string)
| MemberAccessOnNonClassField (context member field : string)
| UndefinedMember (context cls member : string)
| ComputedFeatureTypeMismatch (field cls declared inferred : string).

(** Members [symbolTable_] and [hasErrors_] of [SemanticAnalyzer]; the
    diagnostics printed through [Console::ReportError] are kept in order. *)
Record AState := mkAState {
  symbolTable_ : SymbolTable;
  hasErrors_ : bool;
  diagnostics : list Diagnostic
}.

Definition M (A : Type) : Type := AState -> A * AState.

Definition ret {A} (a : A) : M A := fun s => (a, s).
Definition bind {A B} (m : M A) (k : A -> M B) : M B :=
  fun s => let (a, s') := m s in k a s'.

Notation "x <- m ;; k" := (bind m (fun x => k))
  (at level 61, m at next level, right associativity).
Notation "m ;;; k" := (bind m (fun _ => k))
  (at level 61, right associativity).

Definition get_table : M SymbolTable := fun s => (symbolTable_ s, s).
Definition put_table (t : SymbolTable) : M unit :=
  fun s => (tt, mkAState t (hasErrors_ s) (diagnostics s)).
Definition get_hasErrors : M bool := fun s => (hasErrors_ s, s).

(** [SemanticAnalyzer::ReportError] *)
Definition ReportError (d : Diagnostic) : M unit :=
  fun s => (tt, mkAState (symbolTable_ s) true (diagnostics s ++ [d])).

(** A C++ [for] loop whose body may clear a [success] flag: every body
    runs, in order, and the loop succeeds iff every body did. *)
Fixpoint for_each_success {A} (body : A -> M bool) (xs : list A) : M bool :=
  match xs with
  | [] => ret true
  | x :: rest =>
      ok <- body x ;;
      okRest <- for_each_success body rest ;;
      ret (ok && okRest)
  end.

(* ------------------------------------------------------------------ *)
(** ** Symbol table construction *)

Definition decl_name (d : Declaration) : string :=
  match d with EnumDecl e => e_name e | ClassDecl c => c_name c end.

Definition decl_symbol (d : Declaration) : TypeSymbol :=
  match d with EnumDecl e => SymEnum e | ClassDecl c => SymClass c end.

(** One iteration of the loop of [BuildSymbolTable] (both branches of the
    ENUM/CLASS test do the same). *)
Definition RegisterDeclaration (d : Declaration) : M bool :=
  tbl <- get_table ;;
  if TypeExists tbl (decl_name d) then
    ReportError (DuplicateTypeName (decl_name d)) ;;; ret false
  else
    put_table (map_insert tbl (decl_name d) (decl_symbol d)) ;;; ret true.

Definition BuildSymbolTable (ast : AST) : M bool :=
  for_each_success RegisterDeclaration ast.

(* ------------------------------------------------------------------ *)
(** ** Expressions: field references and member accesses *)

(** [CollectFieldReferences(expr, fields)] *)
Fixpoint CollectFieldReferences (e : Expression) (fields : StringSet) : StringSet :=
  match e with
  | FieldReference n => set_insert n fields
  | MemberAccessExpression obj _ => CollectFieldReferences obj fields
  | BinaryExpression l _ r => CollectFieldReferences r (CollectFieldReferences l fields)
  | UnaryExpression _ x => CollectFieldReferences x fields
  | ParenthesizedExpression x => CollectFieldReferences x fields
  | FunctionCall _ args =>
      (fix go (args : list Expression) (acc : StringSet) : StringSet :=
         match args with
         | [] => acc
         | a :: rest => go rest (CollectFieldReferences a acc)
         end) args fields
  | LiteralExpression _ => fields
  end.

(** [ValidateMemberAccess(memberAccess, classDecl, errorContext)] for the
    access [object.member]; the context names the computed feature. *)
Fixpoint ValidateMemberAccess (object : Expression) (member : string)
    (c : ClassDeclaration) (ctx : string) : M bool :=
  match object with
  | FieldReference on =>
      tbl <- get_table ;;
      match GetFieldType tbl c on with
      | None => ReportError (MemberFieldNotFound ctx on (c_name c)) ;;; ret false
      | Some (SymClass fc) =>
          match GetFieldType tbl fc member with
          | None => ReportError (UndefinedMember ctx (c_name fc) member) ;;; ret false
          | Some _ => ret true
          end
      | Some _ => ReportError (MemberAccessOnNonClassField ctx member on) ;;; ret false
      end
  | MemberAccessExpression inner innerMember =>
      ok <- ValidateMemberAccess inner innerMember c ctx ;;
      if ok then ret true else ret false
  | _ => ret true
  end.

(** [ValidateMemberAccessInExpression(expr, classDecl, errorContext)] *)
Fixpoint ValidateMemberAccessInExpression (e : Expression) (c : ClassDeclaration)
    (ctx : string) : M bool :=
  match e with
  | MemberAccessExpression obj member => ValidateMemberAccess obj member c ctx
  | BinaryExpression l _ r =>
      okL <- ValidateMemberAccessInExpression l c ctx ;;
      okR <- ValidateMemberAccessInExpression r c ctx ;;
      ret (okL && okR)
  | UnaryExpression _ x => ValidateMemberAccessInExpression x c ctx
  | ParenthesizedExpression x => ValidateMemberAccessInExpression x c ctx
  | FunctionCall _ args =>
      (fix go (args : list Expression) : M bool :=
         match args with
         | [] => ret true
         | a :: rest =>
             ok <- ValidateMemberAccessInExpression a c ctx ;;
             okRest <- go rest ;;
             ret (ok && okRest)
         end) args
  | FieldReference _ | LiteralExpression _ => ret true
  end.

(* ------------------------------------------------------------------ *)
(** ** Per-class validators *)

(** The [switch] on [exprType] that names the inferred type. *)
Definition ExprTypeName (t : ExpressionType) : string :=
  match t with
  | INT => "Int"
  | REAL => "Real"
  | STRING => "String"
  | BOOL => "Bool"
  | TIMESTAMP => "Timestamp"
  | TIMESPAN => "Timespan"
  | GUID => "Guid"
  | _ => "Unknown"
  end.

Definition TypeSpecName (ts : TypeSpec) : string :=
  match ts with
  | PrimitiveTypeSpec p => TypeToString p
  | UserDefinedTypeSpec n => n
  end.

Definition field_names (fs : list Field) : StringSet :=
  fold_left (fun acc f => set_insert (f_name f) acc) fs [].

(** The four blocks of [ValidateComputedFeatureExpression], in order. *)

(** Cardinality check. *)
Definition CheckComputedCardinality (f : Field) (c : ClassDeclaration) : M bool :=
  match GetCardinalityModifier f with
  | Some (mn, mx) =>
      if IsArray mn mx then
        ReportError (ComputedFeatureArrayNotAllowed (f_name f) (c_name c)) ;;; ret false
      else ret true
  | None => ret true
  end.

(** Referenced fields must exist. *)
Definition CheckComputedReferences (f : Field) (c : ClassDeclaration) (e : Expression)
    (availableFields : StringSet) : M bool :=
  for_each_success
    (fun refField =>
       if set_mem refField availableFields then ret true
       else ReportError (ComputedUndefinedFieldReference (f_name f) (c_name c) refField)
            ;;; ret false)
    (CollectFieldReferences e []).

(** Type check against the declared type. *)
Definition CheckComputedType (f : Field) (c : ClassDeclaration) (e : Expression) : M bool :=
  tbl <- get_table ;;
  let exprType := InferExpressionType tbl e c in
  if negb (ExpressionType_eqb UNKNOWN exprType) then
    if negb (IsTypeCompatible exprType (f_type f)) then
      ReportError (ComputedFeatureTypeMismatch (f_name f) (c_name c)
                     (TypeSpecName (f_type f)) (ExprTypeName exprType)) ;;; ret false
    else ret true
  else ret true.

(** [ValidateComputedFeatureExpression(field, classDecl, availableFields)] *)
Definition ValidateComputedFeatureExpression (f : Field) (c : ClassDeclaration)
    (availableFields : StringSet) : M bool :=
  match f_initializer f with
  | None => ret true
  | Some e =>
      okCard <- CheckComputedCardinality f c ;;
      okRefs <- CheckComputedReferences f c e availableFields ;;
      okMember <- ValidateMemberAccessInExpression e c (f_name f) ;;
      okType <- CheckComputedType f c e ;;
      ret (okCard && okRefs && okMember && okType)
  end.

(** [ValidateComputedFeatures(classDecl)] *)
Definition ValidateComputedFeatures (c : ClassDeclaration) : M bool :=
  tbl <- get_table ;;
  let availableFields := field_names (GetAllFields tbl c) in
  for_each_success
    (fun f => if IsComputed f then ValidateComputedFeatureExpression f c availableFields
              else ret true)
    (c_fields c).

(** [ValidateFieldUniqueness(classDecl)] *)
Fixpoint FieldUniquenessLoop (c : ClassDeclaration) (fs : list Field)
    (fieldNames : StringSet) : M bool :=
  match fs with
  | [] => ret true
  | f :: rest =>
      ok <- (if set_mem (f_name f) fieldNames then
               ReportError (DuplicateField (f_name f) (c_name c)) ;;; ret false
             else ret true) ;;
      okRest <- FieldUniquenessLoop c rest (set_insert (f_name f) fieldNames) ;;
      ret (ok && okRest)
  end.

Definition ValidateFieldUniqueness (c : ClassDeclaration) : M bool :=
  tbl <- get_table ;;
  FieldUniquenessLoop c (GetAllFields tbl c) [].

(** [ValidateInvariants(classDecl)] *)
Definition ValidateInvariants (c : ClassDeclaration) : M bool :=
  tbl <- get_table ;;
  let fieldNames := field_names (GetAllFields tbl c) in
  for_each_success
    (fun inv =>
       match inv_expression inv with
       | None => ReportError (InvariantMissingExpression (inv_name inv) (c_name c)) ;;; ret false
       | Some e =>
           for_each_success
             (fun fieldName =>
                if set_mem fieldName fieldNames then ret true
                else ReportError (InvariantUndefinedFieldReference (inv_name inv) (c_name c) fieldName)
                     ;;; ret false)
             (CollectFieldReferences e [])
       end)
    (c_invariants c).

(** The field-type loop of [ValidateClassDeclaration]. *)
Definition ValidateFieldType (c : ClassDeclaration) (f : Field) : M bool :=
  match f_type f with
  | UserDefinedTypeSpec typeName =>
      tbl <- get_table ;;
      if TypeExists tbl typeName then ret true
      else ReportError (UndefinedFieldType (f_name f) (c_name c) typeName) ;;; ret false
  | PrimitiveTypeSpec _ => ret true
  end.

(** The base-type check of [ValidateClassDeclaration]. *)
Definition ValidateBaseType (c : ClassDeclaration) : M bool :=
  if HasExplicitBase c then
    tbl <- get_table ;;
    match LookupType tbl (c_baseType c) with
    | None => ReportError (UndefinedBaseType (c_name c) (c_baseType c)) ;;; ret false
    | Some (SymClass _) => ret true
    | Some _ => ReportError (InvalidBaseTypeKind (c_name c) (c_baseType c)) ;;; ret false
    end
  else ret true.

(** [ValidateClassDeclaration(classDecl)] *)
Definition ValidateClassDeclaration (c : ClassDeclaration) : M bool :=
  okBase <- ValidateBaseType c ;;
  okTypes <- for_each_success (ValidateFieldType c) (c_fields c) ;;
  okUnique <- ValidateFieldUniqueness c ;;
  okInv <- ValidateInvariants c ;;
  okComputed <- ValidateComputedFeatures c ;;
  ret (okBase && okTypes && okUnique && okInv && okComputed).

(** The cycle check of the second pass of [ValidateTypeReferences]. *)
Definition CheckInheritanceCycle (c : ClassDeclaration) : M bool :=
  if HasExplicitBase c then
    tbl <- get_table ;;
    if HasInheritanceCycle tbl (c_baseType c) (set_insert (c_name c) [])
    then ReportError (CircularInheritance (c_name c)) ;;; ret false
    else ret true
  else ret true.

Definition on_class (k : ClassDeclaration -> M bool) (d : Declaration) : M bool :=
  match d with ClassDecl c => k c | EnumDecl _ => ret true end.

(** [ValidateTypeReferences]: both passes always run. *)
Definition ValidateTypeReferences (ast : AST) : M bool :=
  okFirst <- for_each_success (on_class ValidateClassDeclaration) ast ;;
  okSecond <- for_each_success (on_class CheckInheritanceCycle) ast ;;
  ret (okFirst && okSecond).

(** [SemanticAnalyzer::Analyze] *)
Definition Analyze (ast : AST) : M bool :=
  tbl <- get_table ;;
  put_table (RegisterPrimitiveTypes tbl) ;;;
  okBuild <- BuildSymbolTable ast ;;
  if negb okBuild then ret false
  else
    okRefs <- ValidateTypeReferences ast ;;
    if negb okRefs then ret false
    else
      errs <- get_hasErrors ;;
      ret (negb errs).

(** A freshly constructed [SemanticAnalyzer]. *)
Definition initial_state : AState := mkAState [] false [].

Definition RunAnalyze (ast : AST) : bool * AState := Analyze ast initial_state.

(* ------------------------------------------------------------------ *)
(** ** [Driver::Phase1] *)

(** Lines written through [Console::ReportError] / [ReportStatus]. *)
Inductive ConsoleLine :=
| ErrNullAst                       (** "Error: Cannot perform semantic analysis on null AST" *)
| StatusPhase1Started
| ErrSemantic (d : Diagnostic)     (** "Semantic error: ..." *)
| ErrPhase1Failed
| StatusPhase1Completed.

(** [Driver::Phase1(ast)]: the returned analyzer (its final state), the
    driver's [hasErrors_], and the console output; a null AST is [None]. *)
Definition Phase1 (driverHasErrors : bool) (ast : option AST)
    : option AState * bool * list ConsoleLine :=
  match ast with
  | None => (None, true, [ErrNullAst])
  | Some a =>
      let (ok, st) := RunAnalyze a in
      let out := StatusPhase1Started :: map ErrSemantic (diagnostics st) in
      if negb ok then (None, true, out ++ [ErrPhase1Failed])
      else (Some st, driverHasErrors, out ++ [StatusPhase1Completed])
  end.

(* ------------------------------------------------------------------ *)
(** ** Reading of the specification used to state the claims *)

(** The result type the spec associates with each primitive type. *)
Definition PrimitiveResultType (p : PrimitiveType) : ExpressionType :=
  match p with
  | PT_STRING => STRING
  | PT_INT => INT
  | PT_REAL => REAL
  | PT_BOOL => BOOL
  | PT_TIMESTAMP => TIMESTAMP
  | PT_TIMESPAN => TIMESPAN
  | PT_DATE => DATE
  | PT_GUID => GUID
  end.

(** Implicit conversions (inferred, declared) accepted besides an exact
    match: Int to Real, and Real to and from Timestamp and Timespan. *)
Definition ImplicitConversions : list (ExpressionType * ExpressionType) :=
  [(INT, REAL); (REAL, TIMESTAMP); (REAL, TIMESPAN); (TIMESTAMP, REAL); (TIMESPAN, REAL)].

(** A computed field with the same type, name and initializer but no
    modifiers. *)
Definition without_modifiers (f : Field) : Field :=
  mkField (f_type f) (f_name f) [] (f_isStatic f) (f_initializer f).

(** Concrete declarations used by the examples below. *)
Definition attr (n : string) (t : PrimitiveType) : Field :=
  mkField (PrimitiveTypeSpec t) n [] false None.

Definition computed (n : string) (t : TypeSpec) (ms : list Modifier) (e : Expression) : Field :=
  mkField t n ms false (Some e).

(** Concrete declarations used by the examples of the claims. *)

(** A Timestamp attribute [t] and a computed Timespan [s = t]. *)
Definition TimeClass : ClassDeclaration :=
  mkClass "Interval" ""
    [attr "t" PT_TIMESTAMP; computed "s" (PrimitiveTypeSpec PT_TIMESPAN) [] (FieldReference "t")] [].

(** A computed array feature whose initializer also references an
    undefined field [y]. *)
Definition ArrayClass : ClassDeclaration :=
  mkClass "Order" ""
    [attr "x" PT_INT;
     computed "arr" (PrimitiveTypeSpec PT_INT) [CardinalityModifier 0 (-1)] (FieldReference "y")] [].

Definition DateClass : ClassDeclaration :=
  mkClass "Event" "" [attr "when" PT_DATE] [].

(** A class that repeats its field [x], and an enum with the same name. *)
Definition DupFieldClass : ClassDeclaration :=
  mkClass "Order" "" [attr "x" PT_INT; attr "x" PT_INT] [].

Definition DupEnum : EnumDeclaration := mkEnum "Order" ["Open"; "Closed"].

(** [class A inherits B {}] and [class B inherits A {}]. *)
Definition CycleA : ClassDeclaration := mkClass "A" "B" [] [].
Definition CycleB : ClassDeclaration := mkClass "B" "A" [] [].

(** The same cycle with one class named like a primitive type. *)
Definition IntCycleA : ClassDeclaration := mkClass "Int" "B" [] [].
Definition IntCycleB : ClassDeclaration := mkClass "B" "Int" [] [].

(** Termination measures of the inheritance walks: table entries whose
    class is not yet visited, by key (cycle walk) or by class name (field
    and invariant walks). *)
Definition unvisited_keys (tbl : SymbolTable) (visited : StringSet) : nat :=
  length (filter (fun '(k, s) => is_class_sym s && negb (set_mem k visited)) tbl).

Definition unvisited_classes (tbl : SymbolTable) (visited : StringSet) : nat :=
  length (filter (fun '(_, s) =>
                    match s with SymClass c => negb (set_mem (c_name c) visited) | _ => false end) tbl).

(* ================================================================== *)
(** * Proofs *)

(** ** Induction on expressions, through the argument lists of calls *)

Section ExpressionInduction.
Variable P : Expression -> Prop.
Hypothesis HBin : forall l op r, P l -> P r -> P (BinaryExpression l op r).
Hypothesis HUn : forall op x, P x -> P (UnaryExpression op x).
Hypothesis HRef : forall n, P (FieldReference n).
Hypothesis HMem : forall o m, P o -> P (MemberAccessExpression o m).
Hypothesis HLit : forall l, P (LiteralExpression l).
Hypothesis HCall : forall n args, Forall P args -> P (FunctionCall n args).
Hypothesis HPar : forall x, P x -> P (ParenthesizedExpression x).

Fixpoint Expression_nested_ind (e : Expression) : P e :=
  match e with
  | BinaryExpression l op r => HBin l op r (Expression_nested_ind l) (Expression_nested_ind r)
  | UnaryExpression op x => HUn op x (Expression_nested_ind x)
  | FieldReference n => HRef n
  | MemberAccessExpression o m => HMem o m (Expression_nested_ind o)
  | LiteralExpression l => HLit l
  | FunctionCall n args =>
      HCall n args
        ((fix go (xs : list Expression) : Forall P xs :=
            match xs with
            | [] => Forall_nil P
            | a :: rest => Forall_cons a (Expression_nested_ind a) (go rest)
            end) args)
  | ParenthesizedExpression x => HPar x (Expression_nested_ind x)
  end.
End ExpressionInduction.

Definition list_empty {A} (l : list A) : bool :=
  match l with [] => true | _ => false end.

(** ** How a validator touches the state

    [RepB ok0 P m]: from any state, [m] keeps the symbol table, appends
    some diagnostics [new], all satisfying [P], sets [hasErrors_] exactly
    when [new] is not empty, and returns [false] only if [ok0] was already
    [false] or [new] is not empty. *)
Definition RepB (ok0 : bool) (P : Diagnostic -> Prop) (m : M bool) : Prop :=
  forall s, exists new,
    snd (m s) = mkAState (symbolTable_ s) (hasErrors_ s || negb (list_empty new)) (diagnostics s ++ new)
    /\ Forall P new
    /\ (fst (m s) = false -> ok0 = false \/ new <> []).

(** [Frame m]: what [m] reports does not depend on the diagnostics
    already recorded; running it from any state appends the diagnostics of
    a run from a clean state with the same table. *)
Definition Frame {A} (m : M A) : Prop :=
  forall t h d,
    m (mkAState t h d) =
    (fst (m (mkAState t false [])),
     mkAState (symbolTable_ (snd (m (mkAState t false []))))
              (h || hasErrors_ (snd (m (mkAState t false []))))
              (d ++ diagnostics (snd (m (mkAState t false []))))).

Definition is_type_mismatch (d : Diagnostic) : bool :=
  match d with ComputedFeatureTypeMismatch _ _ _ _ => true | _ => false end.

Definition is_duplicate_type_name (d : Diagnostic) : bool :=
  match d with DuplicateTypeName _ => true | _ => false end.

(** ** Reading of the code used by further properties *)

(** Names of the field references of an expression, in traversal order
    (the object of a member access counts, the member name does not). *)
Fixpoint RefNames (e : Expression) : list string :=
  match e with
  | FieldReference n => [n]
  | MemberAccessExpression o _ => RefNames o
  | BinaryExpression l _ r => RefNames l ++ RefNames r
  | UnaryExpression _ x => RefNames x
  | ParenthesizedExpression x => RefNames x
  | FunctionCall _ args =>
      (fix go (args : list Expression) : list string :=
         match args with
         | [] => []
         | a :: rest => RefNames a ++ go rest
         end) args
  | LiteralExpression _ => []
  end.

(** Strictly increasing for [String.compare]: the shape of a
    [std::set<std::string>]. *)
Fixpoint strictly_sorted (l : list string) : bool :=
  match l with
  | a :: ((b :: _) as rest) =>
      match String.compare a b with Lt => strictly_sorted rest | _ => false end
  | _ => true
  end.

(** The computed field (or the member-access context, which is the
    computed field's name) a computed-feature diagnostic is about. *)
Definition diag_subject (dg : Diagnostic) : option string :=
  match dg with
  | ComputedFeatureArrayNotAllowed f _ => Some f
  | ComputedUndefinedFieldReference f _ _ => Some f
  | MemberFieldNotFound ctx _ _ => Some ctx
  | MemberAccessOnNonClassField ctx _ _ => Some ctx
  | UndefinedMember ctx _ _ => Some ctx
  | ComputedFeatureTypeMismatch f _ _ _ => Some f
  | _ => None
  end.

(** The classes visited by [GetAllFieldsHelper] and
    [GetAllInvariantsHelper], base first. *)
Fixpoint class_chain_fuel (fuel : nat) (tbl : SymbolTable) (c : ClassDeclaration)
    (visited : StringSet) : option (list ClassDeclaration) :=
  match fuel with
  | O => None
  | S fuel' =>
      if set_mem (c_name c) visited then Some []
      else
        let visited1 := set_insert (c_name c) visited in
        let fromBase :=
          if HasExplicitBase c then
            match LookupType tbl (c_baseType c) with
            | Some (SymClass b) => class_chain_fuel fuel' tbl b visited1
            | _ => Some []
            end
          else Some [] in
        match fromBase with
        | Some cs => Some (cs ++ [c])
        | None => None
        end
  end.

(** Each class of the list is the symbol-table base of the next one. *)
Fixpoint linked (tbl : SymbolTable) (l : list ClassDeclaration) : Prop :=
  match l with
  | x :: ((y :: _) as rest) =>
      HasExplicitBase y = true /\ LookupType tbl (c_baseType y) = Some (SymClass x)
      /\ linked tbl rest
  | _ => True
  end.

(** The declarations whose name is already taken: by an entry of the
    table ([prev] starts as its keys) or by an earlier declaration. *)
Fixpoint dup_decls (prev : list string) (ast : AST) : AST :=
  match ast with
  | [] => []
  | d :: rest =>
      (if existsb (String.eqb (decl_name d)) prev then [d] else [])
      ++ dup_decls (prev ++ [decl_name d]) rest
  end.

(** No field reference and no member access anywhere in the expression. *)
Fixpoint field_free (e : Expression) : bool :=
  match e with
  | FieldReference _ => false
  | MemberAccessExpression _ _ => false
  | BinaryExpression l _ r => field_free l && field_free r
  | UnaryExpression _ x => field_free x
  | ParenthesizedExpression x => field_free x
  | FunctionCall _ args =>
      (fix go (args : list Expression) : bool :=
         match args with
         | [] => true
         | a :: rest => field_free a && go rest
         end) args
  | LiteralExpression _ => true
  end.

(** The base that [HasInheritanceCycle] moves to from the name [n]: the
    explicit base of the class the table holds under [n], if any. *)
Definition base_of (tbl : SymbolTable) (n : string) : option string :=
  match LookupType tbl n with
  | Some (SymClass c) => if HasExplicitBase c then Some (c_baseType c) else None
  | _ => None
  end.

(** The name reached after [k] steps along the bases from [n]; [None]
    once the chain has ended. *)
Fixpoint iter_base (tbl : SymbolTable) (n : string) (k : nat) : option string :=
  match k with
  | O => Some n
  | S k' =>
      match base_of tbl n with
      | Some b => iter_base tbl b k'
      | None => None
      end
  end.

Lemma ExpressionType_eqb_eq a b : ExpressionType_eqb a b = true <-> a = b.
Proof. destruct a, b; simpl; split; congruence. Qed.

Lemma RepB_ret ok0 P b : (b = false -> ok0 = false) -> RepB ok0 P (ret b).
Proof.
  intros Hb s. exists []. simpl. rewrite orb_false_r, app_nil_r.
  destruct s; repeat split; auto.
Qed.

Lemma RepB_report ok0 P d b : P d -> RepB ok0 P (ReportError d ;;; ret b).
Proof.
  intros Hd s. exists [d]. simpl. rewrite orb_true_r.
  repeat split; auto. right; discriminate.
Qed.

Lemma RepB_get ok0 P k : (forall t, RepB ok0 P (k t)) -> RepB ok0 P (bind get_table k).
Proof. intros H s. exact (H (symbolTable_ s) s). Qed.

Lemma RepB_bind ok0 P m k :
  RepB true P m -> (forall a, RepB (ok0 && a) P (k a)) -> RepB ok0 P (bind m k).
Proof.
  intros Hm Hk s. unfold bind.
  destruct (Hm s) as [new1 [E1 [F1 R1]]].
  destruct (m s) as [a s1] eqn:Ems. simpl in E1, R1. subst s1.
  destruct (Hk a (mkAState (symbolTable_ s) (hasErrors_ s || negb (list_empty new1)) (diagnostics s ++ new1)))
    as [new2 [E2 [F2 R2]]].
  exists (new1 ++ new2). simpl in E2. rewrite E2.
  split; [| split].
  - rewrite <- orb_assoc, <- app_assoc. f_equal.
    destruct new1, new2; reflexivity.
  - apply Forall_app; auto.
  - intros Hf. destruct (R2 Hf) as [Ha | Hn].
    + destruct ok0; [| left; reflexivity]. simpl in Ha. subst a.
      destruct (R1 eq_refl) as [Hc | Hn1]; [discriminate |].
      right. destruct new1; [contradiction | discriminate].
    + right. destruct new1; [exact Hn | discriminate].
Qed.

Lemma RepB_weaken ok0 P Q m :
  (forall d, P d -> Q d) -> RepB ok0 P m -> RepB ok0 Q m.
Proof.
  intros HPQ Hm s. destruct (Hm s) as [new [E [F R]]].
  exists new. split; [exact E | split; [| exact R]].
  eapply Forall_impl; eauto.
Qed.

Lemma RepB_true ok0 P m : RepB true P m -> RepB ok0 P m.
Proof.
  intros Hm s. destruct (Hm s) as [new [E [F R]]].
  exists new. repeat split; auto.
  intros Hf. destruct (R Hf) as [H | H]; [discriminate | auto].
Qed.

Lemma RepB_for {A} P (body : A -> M bool) xs :
  (forall x, In x xs -> RepB true P (body x)) ->
  RepB true P (for_each_success body xs).
Proof.
  induction xs as [| x rest IH]; intros H; simpl.
  - apply RepB_ret. discriminate.
  - apply RepB_bind; [apply H; left; reflexivity |]. intros a.
    apply RepB_bind; [apply IH; intros y Hy; apply H; right; exact Hy |]. intros b.
    apply RepB_ret. destruct a, b; auto.
Qed.


Ltac bool_cases :=
  repeat match goal with x : bool |- _ => destruct x end; simpl in *; congruence.

Ltac repb :=
  repeat match goal with
  | |- RepB _ _ (bind get_table _) => apply RepB_get; intro
  | |- RepB _ _ (bind (ReportError _) (fun _ => ret _)) => apply RepB_report; simpl; auto
  | |- RepB _ _ (ret _) => apply RepB_ret; intro; bool_cases
  | |- RepB _ _ (bind _ _) => apply RepB_bind; [ | intro ]
  | |- RepB _ _ (if ?b then _ else _) => destruct b
  | |- RepB _ _ (match ?x with _ => _ end) => destruct x
  end.

(** ** Every validator accumulates diagnostics *)

Lemma ValidateMemberAccess_rep obj member c ctx :
  RepB true (fun d => is_type_mismatch d = false) (ValidateMemberAccess obj member c ctx).
Proof.
  revert member. induction obj; intros member; simpl;
    try (apply RepB_bind; [apply IHobj | intro a]); repb.
Qed.

Lemma ValidateMemberAccessInExpression_rep e c ctx :
  RepB true (fun d => is_type_mismatch d = false) (ValidateMemberAccessInExpression e c ctx).
Proof.
  induction e using Expression_nested_ind; simpl; try (repb; fail).
  - apply RepB_bind; [exact IHe1 | intro a].
    apply RepB_bind; [exact IHe2 | intro b]. repb.
  - exact IHe.
  - apply ValidateMemberAccess_rep.
  - induction H as [| a rest Ha Hrest IH]; [repb |].
    apply RepB_bind; [exact Ha | intro x].
    apply RepB_bind; [exact IH | intro y]. repb.
  - exact IHe.
Qed.

Lemma ValidateComputedFeatureExpression_rep f c av :
  RepB true (fun _ => True) (ValidateComputedFeatureExpression f c av).
Proof.
  unfold ValidateComputedFeatureExpression.
  destruct (f_initializer f) as [e |]; [| repb].
  apply RepB_bind; [unfold CheckComputedCardinality; repb | intro a].
  apply RepB_bind; [apply RepB_for; intros; repb | intro b].
  apply RepB_bind;
    [eapply RepB_weaken; [| apply ValidateMemberAccessInExpression_rep]; auto | intro d].
  apply RepB_bind; [unfold CheckComputedType; repb | intro g]. repb.
Qed.

Lemma ValidateClassDeclaration_rep c :
  RepB true (fun _ => True) (ValidateClassDeclaration c).
Proof.
  unfold ValidateClassDeclaration.
  apply RepB_bind; [unfold ValidateBaseType; repb | intro a1].
  apply RepB_bind; [apply RepB_for; intros; unfold ValidateFieldType; repb | intro a2].
  apply RepB_bind.
  { unfold ValidateFieldUniqueness. apply RepB_get; intro t.
    generalize (@nil string). induction (GetAllFields t c) as [| f rest IH]; intro names; simpl.
    - repb.
    - apply RepB_bind; [repb | intro x]. apply RepB_bind; [apply IH | intro y]. repb. }
  intro a3.
  apply RepB_bind.
  { unfold ValidateInvariants. apply RepB_get; intro t.
    apply RepB_for; intros inv _. destruct (inv_expression inv); [| repb].
    apply RepB_for; intros; repb. }
  intro a4.
  apply RepB_bind.
  { unfold ValidateComputedFeatures. apply RepB_get; intro t.
    apply RepB_for; intros f _. destruct (IsComputed f); [| repb].
    apply ValidateComputedFeatureExpression_rep. }
  intro a5. repb.
Qed.

Lemma ValidateTypeReferences_rep ast :
  RepB true (fun _ => True) (ValidateTypeReferences ast).
Proof.
  unfold ValidateTypeReferences.
  apply RepB_bind.
  { apply RepB_for; intros [e | c] _; simpl; [repb | apply ValidateClassDeclaration_rep]. }
  intro a.
  apply RepB_bind.
  { apply RepB_for; intros [e | c] _; simpl; [repb |]. unfold CheckInheritanceCycle. repb. }
  intro b. repb.
Qed.

Lemma for_each_success_cons {A} (body : A -> M bool) x rest s :
  for_each_success body (x :: rest) s =
  let (a, s1) := body x s in
  let (b, s2) := for_each_success body rest s1 in (a && b, s2).
Proof.
  simpl. unfold bind, ret. destruct (body x s). destruct (for_each_success body rest a).
  reflexivity.
Qed.

Lemma RegisterDeclaration_eq d s :
  RegisterDeclaration d s =
  if TypeExists (symbolTable_ s) (decl_name d)
  then (false, mkAState (symbolTable_ s) true (diagnostics s ++ [DuplicateTypeName (decl_name d)]))
  else (true, mkAState (map_insert (symbolTable_ s) (decl_name d) (decl_symbol d))
                (hasErrors_ s) (diagnostics s)).
Proof. unfold RegisterDeclaration, bind, get_table. simpl. destruct (TypeExists _ _); reflexivity. Qed.

(** [BuildSymbolTable] may grow the table; its diagnostics are all
    [DuplicateTypeName] and it fails only after reporting one. *)
Lemma BuildSymbolTable_rep ast s :
  exists tbl' new,
    snd (BuildSymbolTable ast s) = mkAState tbl' (hasErrors_ s || negb (list_empty new)) (diagnostics s ++ new)
    /\ Forall (fun d => is_duplicate_type_name d = true) new
    /\ (fst (BuildSymbolTable ast s) = false -> new <> []).
Proof.
  unfold BuildSymbolTable. revert s.
  induction ast as [| d rest IH]; intros s.
  - exists (symbolTable_ s), []. destruct s; simpl. rewrite orb_false_r, app_nil_r.
    repeat split; auto. discriminate.
  - rewrite for_each_success_cons, RegisterDeclaration_eq.
    destruct (TypeExists (symbolTable_ s) (decl_name d)).
    + destruct (IH (mkAState (symbolTable_ s) true (diagnostics s ++ [DuplicateTypeName (decl_name d)])))
        as [t' [new [E [F R]]]].
      destruct (for_each_success RegisterDeclaration rest _) as [b s'].
      simpl in *. exists t', (DuplicateTypeName (decl_name d) :: new).
      rewrite E, <- app_assoc, orb_true_r. repeat split; auto. discriminate.
    + destruct (IH (mkAState (map_insert (symbolTable_ s) (decl_name d) (decl_symbol d))
                      (hasErrors_ s) (diagnostics s)))
        as [t' [new [E [F R]]]].
      destruct (for_each_success RegisterDeclaration rest _) as [b s'].
      simpl in *. exists t', new. rewrite E. repeat split; auto.
Qed.

Lemma Analyze_eq ast s :
  Analyze ast s =
  let s0 := mkAState (RegisterPrimitiveTypes (symbolTable_ s)) (hasErrors_ s) (diagnostics s) in
  let (okBuild, s1) := BuildSymbolTable ast s0 in
  if negb okBuild then (false, s1)
  else
    let (okRefs, s2) := ValidateTypeReferences ast s1 in
    if negb okRefs then (false, s2) else (negb (hasErrors_ s2), s2).
Proof.
  unfold Analyze, bind at 1, get_table, bind at 1, put_table. simpl.
  unfold bind at 1. destruct (BuildSymbolTable ast _) as [okB s1].
  destruct okB; simpl; [| reflexivity].
  unfold bind at 1. destruct (ValidateTypeReferences ast s1) as [okR s2].
  destruct okR; reflexivity.
Qed.

(** C5: [Analyze] succeeds exactly when no error was recorded; its
    verdict is always the negation of [hasErrors_]. *)
Theorem Analyze_success_iff_no_errors ast :
  fst (RunAnalyze ast) = negb (hasErrors_ (snd (RunAnalyze ast)))
  /\ (fst (RunAnalyze ast) = true <-> diagnostics (snd (RunAnalyze ast)) = []).
Proof.
  unfold RunAnalyze. rewrite Analyze_eq. simpl.
  destruct (BuildSymbolTable_rep ast (mkAState (RegisterPrimitiveTypes []) false []))
    as [t1 [new1 [E1 [_ R1]]]].
  destruct (BuildSymbolTable ast _) as [okB s1]. simpl in E1, R1. subst s1.
  destruct okB; simpl.
  - destruct (ValidateTypeReferences_rep ast (mkAState t1 (negb (list_empty new1)) new1))
      as [new2 [E2 [_ R2]]].
    destruct (ValidateTypeReferences ast _) as [okR s2]. simpl in E2, R2. subst s2.
    destruct okR; simpl.
    + destruct new1, new2; simpl; split; try tauto; split; intro H; try discriminate; try reflexivity.
    + destruct (R2 eq_refl) as [H | H]; [discriminate |].
      destruct new1, new2; simpl; try congruence; split; try reflexivity; split; intro; discriminate.
  - pose proof (R1 eq_refl) as H. destruct new1; [congruence |]. simpl.
    split; [reflexivity | split; intro; discriminate].
Qed.

(** ** Diagnostics are appended independently of the earlier ones *)

Lemma Frame_ret {A} (a : A) : Frame (ret a).
Proof. intros t h d. unfold ret. simpl. rewrite orb_false_r, app_nil_r. reflexivity. Qed.

Lemma Frame_report d : Frame (ReportError d).
Proof. intros t h d0. unfold ReportError. simpl. rewrite orb_true_r. reflexivity. Qed.

Lemma Frame_get : Frame get_table.
Proof. intros t h d. unfold get_table. simpl. rewrite orb_false_r, app_nil_r. reflexivity. Qed.

Lemma Frame_bind {A B} (m : M A) (k : A -> M B) :
  Frame m -> (forall a, Frame (k a)) -> Frame (bind m k).
Proof.
  intros Hm Hk t h d. unfold bind.
  rewrite (Hm t h d), (Hm t false []).
  destruct (m (mkAState t false [])) as [a [t1 h1 d1]]. simpl.
  rewrite (Hk a t1 (h || h1) (d ++ d1)), (Hk a t1 h1 d1).
  destruct (k a (mkAState t1 false [])) as [b [t2 h2 d2]]. simpl.
  rewrite orb_assoc, app_assoc. reflexivity.
Qed.

Lemma Frame_for {A} (body : A -> M bool) xs :
  (forall x, Frame (body x)) -> Frame (for_each_success body xs).
Proof.
  intros H. induction xs as [| x rest IH]; simpl.
  - apply Frame_ret.
  - apply Frame_bind; [apply H | intro a]. apply Frame_bind; [exact IH | intro b]. apply Frame_ret.
Qed.

Ltac frame :=
  repeat match goal with
  | |- Frame (bind _ _) => apply Frame_bind; [ | intro ]
  | |- Frame (ret _) => apply Frame_ret
  | |- Frame get_table => apply Frame_get
  | |- Frame (ReportError _) => apply Frame_report
  | |- Frame (if ?b then _ else _) => destruct b
  | |- Frame (match ?x with _ => _ end) => destruct x
  end.

Lemma ValidateMemberAccess_frame obj member c ctx : Frame (ValidateMemberAccess obj member c ctx).
Proof.
  revert member. induction obj; intros member; simpl;
    try (apply Frame_bind; [apply IHobj | intro a]); frame.
Qed.

Lemma ValidateMemberAccessInExpression_frame e c ctx :
  Frame (ValidateMemberAccessInExpression e c ctx).
Proof.
  induction e using Expression_nested_ind; simpl; try (frame; fail).
  - apply Frame_bind; [exact IHe1 | intro a]. apply Frame_bind; [exact IHe2 | intro b]. frame.
  - exact IHe.
  - apply ValidateMemberAccess_frame.
  - induction H as [| a rest Ha Hrest IH]; [frame |].
    apply Frame_bind; [exact Ha | intro x]. apply Frame_bind; [exact IH | intro y]. frame.
  - exact IHe.
Qed.

Lemma CheckComputedReferences_frame f c e av : Frame (CheckComputedReferences f c e av).
Proof. unfold CheckComputedReferences. apply Frame_for. intro x. frame. Qed.

Lemma CheckComputedType_frame f c e : Frame (CheckComputedType f c e).
Proof. unfold CheckComputedType. frame. Qed.

Lemma CheckComputedCardinality_frame f c : Frame (CheckComputedCardinality f c).
Proof. unfold CheckComputedCardinality. frame. Qed.

Lemma RepB_table ok0 P m s : RepB ok0 P m -> symbolTable_ (snd (m s)) = symbolTable_ s.
Proof. intros H. destruct (H s) as [new [E _]]. rewrite E. reflexivity. Qed.

Lemma RepB_clean ok0 P m t : RepB ok0 P m -> Forall P (diagnostics (snd (m (mkAState t false [])))).
Proof. intros H. destruct (H (mkAState t false [])) as [new [E [F _]]]. rewrite E. exact F. Qed.

Lemma CheckComputedCardinality_rep f c :
  RepB true (fun d => is_type_mismatch d = false) (CheckComputedCardinality f c).
Proof. unfold CheckComputedCardinality. repb. Qed.

Lemma CheckComputedReferences_rep f c e av :
  RepB true (fun d => is_type_mismatch d = false) (CheckComputedReferences f c e av).
Proof. unfold CheckComputedReferences. apply RepB_for. intros. repb. Qed.

Lemma CheckComputedType_rep f c e : RepB true (fun _ => True) (CheckComputedType f c e).
Proof. unfold CheckComputedType. repb. Qed.

(** A frame computation that keeps the table, run after another one. *)
Lemma run_frame_keep {A} (m : M A) t h d :
  Frame m -> symbolTable_ (snd (m (mkAState t false []))) = t ->
  m (mkAState t h d) =
  (fst (m (mkAState t false [])),
   mkAState t (h || hasErrors_ (snd (m (mkAState t false []))))
              (d ++ diagnostics (snd (m (mkAState t false []))))).
Proof. intros Hf Ht. rewrite (Hf t h d), Ht. reflexivity. Qed.

(** The diagnostics of a computed feature are those of its four blocks,
    each run against the same symbol table. *)
Lemma ValidateComputedFeatureExpression_diagnostics f c av e s :
  f_initializer f = Some e ->
  let clean := mkAState (symbolTable_ s) false [] in
  diagnostics (snd (ValidateComputedFeatureExpression f c av s)) =
  diagnostics s
  ++ diagnostics (snd (CheckComputedCardinality f c clean))
  ++ diagnostics (snd (CheckComputedReferences f c e av clean))
  ++ diagnostics (snd (ValidateMemberAccessInExpression e c (f_name f) clean))
  ++ diagnostics (snd (CheckComputedType f c e clean)).
Proof.
  intros Hinit clean. unfold ValidateComputedFeatureExpression. rewrite Hinit.
  destruct s as [t h d]. unfold clean; simpl.
  unfold bind at 1.
  rewrite (run_frame_keep _ t h d (CheckComputedCardinality_frame f c)
             (RepB_table _ _ _ _ (CheckComputedCardinality_rep f c))).
  unfold bind at 1.
  rewrite (run_frame_keep _ t _ _ (CheckComputedReferences_frame f c e av)
             (RepB_table _ _ _ _ (CheckComputedReferences_rep f c e av))).
  unfold bind at 1.
  rewrite (run_frame_keep _ t _ _ (ValidateMemberAccessInExpression_frame e c (f_name f))
             (RepB_table _ _ _ _ (ValidateMemberAccessInExpression_rep e c (f_name f)))).
  unfold bind at 1.
  rewrite (run_frame_keep _ t _ _ (CheckComputedType_frame f c e)
             (RepB_table _ _ _ _ (CheckComputedType_rep f c e))).
  simpl. rewrite !app_assoc. reflexivity.
Qed.

Lemma CheckComputedType_clean f c e t :
  let exprType := InferExpressionType t e c in
  diagnostics (snd (CheckComputedType f c e (mkAState t false []))) =
  if negb (ExpressionType_eqb UNKNOWN exprType) && negb (IsTypeCompatible exprType (f_type f))
  then [ComputedFeatureTypeMismatch (f_name f) (c_name c) (TypeSpecName (f_type f)) (ExprTypeName exprType)]
  else [].
Proof.
  cbv zeta. unfold CheckComputedType, bind, get_table. simpl.
  destruct (InferExpressionType t e c); simpl; try reflexivity;
    destruct (IsTypeCompatible _ (f_type f)); reflexivity.
Qed.

(** ** Type inference and type compatibility *)

(** C6: inference for binary expressions. *)
Theorem InferExpressionType_binary tbl l op r c :
  let lt := InferExpressionType tbl l c in
  let rt := InferExpressionType tbl r c in
  let t := InferExpressionType tbl (BinaryExpression l op r) c in
  (In op [LT; GT; LE; GE; EQ; NE; AND; OR] -> t = BOOL)
  /\ (In op [ADD; SUB; MUL; DIV; MOD] ->
      ((lt = UNKNOWN \/ rt = UNKNOWN) -> t = UNKNOWN)
      /\ (lt <> UNKNOWN -> rt <> UNKNOWN ->
          In lt [REAL; TIMESTAMP; TIMESPAN] \/ In rt [REAL; TIMESTAMP; TIMESPAN] -> t = REAL)
      /\ (lt = INT -> rt = INT -> t = INT)
      /\ (op = ADD -> lt = STRING -> rt = STRING -> t = STRING)
      /\ (~ (lt = UNKNOWN \/ rt = UNKNOWN) ->
          ~ (In lt [REAL; TIMESTAMP; TIMESPAN] \/ In rt [REAL; TIMESTAMP; TIMESPAN]) ->
          ~ (lt = INT /\ rt = INT) ->
          ~ (op = ADD /\ lt = STRING /\ rt = STRING) -> t = UNKNOWN)).
Proof.
  cbv zeta.
  change (InferExpressionType tbl (BinaryExpression l op r) c) with
    (if is_bool_op op then BOOL
     else InferArithmetic op (InferExpressionType tbl l c) (InferExpressionType tbl r c)).
  generalize (InferExpressionType tbl l c) as a, (InferExpressionType tbl r c) as b.
  intros a b.
  split.
  - intros H. destruct op; simpl in H |- *; try reflexivity;
      repeat (destruct H as [H | H]; [discriminate |]); contradiction.
  - intros Hop.
    assert (Hb : is_bool_op op = false)
      by (destruct op; simpl in Hop; try reflexivity;
          repeat (destruct Hop as [Hop | Hop]; [discriminate |]); contradiction).
    simpl. rewrite Hb. clear Hop Hb. unfold InferArithmetic.
    split; [| split; [| split; [| split]]].
    + intros [-> | ->]; [reflexivity |]. destruct a; reflexivity.
    + intros Ha Hb' Hin. destruct a; try congruence; destruct b; try congruence;
        simpl in Hin; try reflexivity;
        destruct Hin as [Hin | Hin]; repeat (destruct Hin as [Hin | Hin]; [discriminate |]);
        contradiction.
    + intros -> ->. reflexivity.
    + intros -> -> ->. reflexivity.
    + intros Hu Hr Hi Hs.
      destruct a; try (exfalso; apply Hu; auto; fail);
        try (exfalso; apply Hr; simpl; auto; fail);
      destruct b; try (exfalso; apply Hu; auto; fail);
        try (exfalso; apply Hr; simpl; auto; fail);
        try (exfalso; apply Hi; auto; fail);
        try reflexivity;
      destruct op; try reflexivity; exfalso; apply Hs; auto.
Qed.

Lemma InferExpressionType_binary_witness :
  InferExpressionType [] (BinaryExpression (LiteralExpression (LitInt 1)) LT
                            (LiteralExpression (LitInt 2))) DateClass = BOOL.
Proof.
  exact (proj1 (InferExpressionType_binary [] (LiteralExpression (LitInt 1)) LT
                  (LiteralExpression (LitInt 2)) DateClass) (or_introl eq_refl)).
Defined.

Lemma no_mismatch_before_type_check f c av e t :
  Forall (fun d => is_type_mismatch d = false)
    (diagnostics (snd (CheckComputedCardinality f c (mkAState t false [])))
     ++ diagnostics (snd (CheckComputedReferences f c e av (mkAState t false [])))
     ++ diagnostics (snd (ValidateMemberAccessInExpression e c (f_name f) (mkAState t false [])))).
Proof.
  apply Forall_app; split; [| apply Forall_app; split].
  - eapply RepB_clean, CheckComputedCardinality_rep.
  - eapply RepB_clean, CheckComputedReferences_rep.
  - eapply RepB_clean, ValidateMemberAccessInExpression_rep.
Qed.

(** C10: when the initializer's inferred type is [UNKNOWN] the type check
    is skipped: no [ComputedFeatureTypeMismatch] is reported for the field,
    whatever its declared type. *)
Theorem unknown_initializer_type_skips_type_check f c av e s :
  f_initializer f = Some e ->
  InferExpressionType (symbolTable_ s) e c = UNKNOWN ->
  exists new,
    diagnostics (snd (ValidateComputedFeatureExpression f c av s)) = diagnostics s ++ new
    /\ Forall (fun d => is_type_mismatch d = false) new.
Proof.
  intros Hinit Hunk.
  rewrite (ValidateComputedFeatureExpression_diagnostics f c av e s Hinit).
  rewrite CheckComputedType_clean. rewrite Hunk. simpl.
  eexists; split; [reflexivity |].
  rewrite app_nil_r, !app_assoc, <- !app_assoc.
  apply no_mismatch_before_type_check.
Qed.

Lemma unknown_initializer_type_skips_type_check_witness :
  exists new,
    diagnostics (snd (ValidateComputedFeatureExpression
                        (computed "total" (PrimitiveTypeSpec PT_INT) [] (FunctionCall "now" []))
                        (mkClass "Order" "" [] []) [] initial_state)) = diagnostics initial_state ++ new
    /\ Forall (fun d => is_type_mismatch d = false) new.
Proof.
  apply (unknown_initializer_type_skips_type_check
           (computed "total" (PrimitiveTypeSpec PT_INT) [] (FunctionCall "now" []))
           (mkClass "Order" "" [] []) [] (FunctionCall "now" []) initial_state);
    reflexivity.
Defined.

Lemma ExpressionType_eqb_unknown t : t <> UNKNOWN -> ExpressionType_eqb UNKNOWN t = false.
Proof. destruct t; simpl; congruence. Qed.

(** C1 (amended): for a declared primitive type other than [Date], the
    accepted (inferred, declared) pairs are the exact matches, Int to Real,
    and Real to and from Timestamp and Timespan; any other pair is rejected
    and, for a computed field whose initializer has that known inferred
    type, yields [ComputedFeatureTypeMismatch]. *)
Theorem IsTypeCompatible_primitive p t :
  p <> PT_DATE ->
  (IsTypeCompatible t (PrimitiveTypeSpec p) = true <->
     t = PrimitiveResultType p \/ In (t, PrimitiveResultType p) ImplicitConversions)
  /\ (forall f c av e s,
        f_type f = PrimitiveTypeSpec p ->
        f_initializer f = Some e ->
        InferExpressionType (symbolTable_ s) e c = t ->
        t <> UNKNOWN ->
        IsTypeCompatible t (PrimitiveTypeSpec p) = false ->
        In (ComputedFeatureTypeMismatch (f_name f) (c_name c) (TypeToString p) (ExprTypeName t))
           (diagnostics (snd (ValidateComputedFeatureExpression f c av s)))).
Proof.
  intros Hp. split.
  - destruct p; try (exfalso; congruence); destruct t; simpl;
      split; intro H; try reflexivity; try discriminate;
      repeat match goal with
             | H : _ \/ _ |- _ => destruct H as [H | H]
             end;
      try discriminate; try contradiction; auto 10.
  - intros f c av e s Hft Hinit Hinf Hunk Hinc.
    rewrite (ValidateComputedFeatureExpression_diagnostics f c av e s Hinit).
    rewrite CheckComputedType_clean, Hinf, Hft, Hinc, (ExpressionType_eqb_unknown t Hunk).
    simpl. rewrite !app_assoc. apply in_or_app. right. left. reflexivity.
Qed.

Lemma IsTypeCompatible_primitive_witness :
  (IsTypeCompatible INT (PrimitiveTypeSpec PT_REAL) = true <->
     INT = PrimitiveResultType PT_REAL \/ In (INT, PrimitiveResultType PT_REAL) ImplicitConversions)
  /\ (forall f c av e s,
        f_type f = PrimitiveTypeSpec PT_REAL ->
        f_initializer f = Some e ->
        InferExpressionType (symbolTable_ s) e c = INT ->
        INT <> UNKNOWN ->
        IsTypeCompatible INT (PrimitiveTypeSpec PT_REAL) = false ->
        In (ComputedFeatureTypeMismatch (f_name f) (c_name c) (TypeToString PT_REAL) (ExprTypeName INT))
           (diagnostics (snd (ValidateComputedFeatureExpression f c av s)))).
Proof. apply (IsTypeCompatible_primitive PT_REAL INT). discriminate. Defined.

(** C1 is refuted: Timestamp and Timespan are not compatible with each
    other, and the analyzer reports a type mismatch for [s = t]. *)
Lemma IsTypeCompatible_timestamp_timespan_counterexample :
  IsTypeCompatible TIMESTAMP (PrimitiveTypeSpec PT_TIMESPAN) = false
  /\ IsTypeCompatible TIMESPAN (PrimitiveTypeSpec PT_TIMESTAMP) = false
  /\ RunAnalyze [ClassDecl TimeClass] =
     (false, mkAState (symbolTable_ (snd (RunAnalyze [ClassDecl TimeClass]))) true
               [ComputedFeatureTypeMismatch "s" "Interval" "Timespan" "Timestamp"]).
Proof. split; [reflexivity | split; [reflexivity | vm_compute; reflexivity]]. Qed.

(** ** Computed features declared as arrays *)

(** C2 (amended): an array cardinality is reported, and the reference,
    member-access and type checks still run: the field gets
    [ComputedFeatureArrayNotAllowed] followed by exactly the diagnostics
    of the same field without its modifiers. *)
Theorem computed_array_reported_checks_continue f c av e s mn mx :
  f_initializer f = Some e ->
  GetCardinalityModifier f = Some (mn, mx) ->
  IsArray mn mx = true ->
  diagnostics (snd (ValidateComputedFeatureExpression f c av s)) =
  diagnostics s
  ++ ComputedFeatureArrayNotAllowed (f_name f) (c_name c)
  :: diagnostics (snd (ValidateComputedFeatureExpression (without_modifiers f) c av
                         (mkAState (symbolTable_ s) false []))).
Proof.
  intros Hinit Hcard Harr.
  rewrite (ValidateComputedFeatureExpression_diagnostics f c av e s Hinit).
  rewrite (ValidateComputedFeatureExpression_diagnostics (without_modifiers f) c av e
             (mkAState (symbolTable_ s) false []) Hinit).
  simpl symbolTable_.
  unfold CheckComputedCardinality at 1. rewrite Hcard, Harr.
  reflexivity.
Qed.

Lemma computed_array_reported_checks_continue_witness :
  diagnostics (snd (ValidateComputedFeatureExpression
                      (computed "tags" (PrimitiveTypeSpec PT_STRING) [CardinalityModifier 0 (-1)]
                         (FieldReference "name"))
                      (mkClass "Item" "" [] []) [] initial_state)) =
  diagnostics initial_state
  ++ ComputedFeatureArrayNotAllowed "tags" "Item"
  :: diagnostics (snd (ValidateComputedFeatureExpression
                         (without_modifiers
                            (computed "tags" (PrimitiveTypeSpec PT_STRING) [CardinalityModifier 0 (-1)]
                               (FieldReference "name")))
                         (mkClass "Item" "" [] []) []
                         (mkAState (symbolTable_ initial_state) false []))).
Proof.
  apply (computed_array_reported_checks_continue
           (computed "tags" (PrimitiveTypeSpec PT_STRING) [CardinalityModifier 0 (-1)]
              (FieldReference "name"))
           (mkClass "Item" "" [] []) [] (FieldReference "name") initial_state 0 (-1));
    reflexivity.
Defined.

(** C2 is refuted: after [ComputedFeatureArrayNotAllowed] the undefined
    field reference of the same initializer is reported too. *)
Lemma computed_array_not_skipped_counterexample :
  diagnostics (snd (RunAnalyze [ClassDecl ArrayClass])) =
  [ComputedFeatureArrayNotAllowed "arr" "Order"; ComputedUndefinedFieldReference "arr" "Order" "y"].
Proof. vm_compute. reflexivity. Qed.

(** ** Field references of primitive type [Date] *)

(** C4 fails on the code: a reference to a [Date] field is inferred as
    [UNKNOWN], not [DATE], because [PrimitiveNameToExpressionType] has no
    case for "Date". *)
Lemma InferExpressionType_date_field :
  fst (RunAnalyze [ClassDecl DateClass]) = true
  /\ InferExpressionType (symbolTable_ (snd (RunAnalyze [ClassDecl DateClass])))
       (FieldReference "when") DateClass = UNKNOWN
  /\ PrimitiveResultType PT_DATE = DATE
  /\ PrimitiveNameToExpressionType (TypeToString PT_DATE) = UNKNOWN.
Proof. vm_compute. repeat split. Qed.

(** ** Termination of the inheritance walks *)

Lemma set_mem_insert x y s : set_mem x (set_insert y s) = String.eqb x y || set_mem x s.
Proof.
  induction s as [| z rest IH]; simpl; [rewrite orb_false_r; reflexivity |].
  destruct (String.compare y z) eqn:Hc; simpl.
  - apply String.compare_eq_iff in Hc. subst z.
    destruct (String.eqb x y); reflexivity.
  - reflexivity.
  - rewrite IH. destruct (String.eqb x z), (String.eqb x y); reflexivity.
Qed.

Lemma filter_length_mono {A} (f g : A -> bool) l :
  (forall x, In x l -> g x = true -> f x = true) ->
  length (filter g l) <= length (filter f l).
Proof.
  induction l as [| x rest IH]; intros H; simpl; [lia |].
  specialize (IH (fun y Hy => H y (or_intror Hy))).
  destruct (g x) eqn:Hg.
  - rewrite (H x (or_introl eq_refl) Hg). simpl. lia.
  - destruct (f x); simpl; lia.
Qed.

Lemma filter_length_strict {A} (f g : A -> bool) l x0 :
  (forall x, In x l -> g x = true -> f x = true) ->
  In x0 l -> f x0 = true -> g x0 = false ->
  length (filter g l) < length (filter f l).
Proof.
  induction l as [| x rest IH]; intros H Hin Hf Hg; [contradiction |].
  simpl. destruct Hin as [-> | Hin].
  - rewrite Hf, Hg. simpl.
    pose proof (filter_length_mono f g rest (fun y Hy => H y (or_intror Hy))). lia.
  - specialize (IH (fun y Hy => H y (or_intror Hy)) Hin Hf Hg).
    destruct (g x) eqn:Hgx.
    + rewrite (H x (or_introl eq_refl) Hgx). simpl. lia.
    + destruct (f x); simpl; lia.
Qed.

Lemma LookupType_In tbl n s : LookupType tbl n = Some s -> In (n, s) tbl.
Proof.
  induction tbl as [| [k s'] rest IH]; simpl; [discriminate |].
  destruct (String.eqb k n) eqn:E.
  - intros H. injection H as <-. apply String.eqb_eq in E. subst. left. reflexivity.
  - intros H. right. apply IH, H.
Qed.

Lemma unvisited_keys_insert tbl n vis :
  unvisited_keys tbl (set_insert n vis) <= unvisited_keys tbl vis.
Proof.
  unfold unvisited_keys. apply filter_length_mono. intros [k s] _.
  rewrite set_mem_insert. destruct (is_class_sym s), (String.eqb k n), (set_mem k vis); auto.
Qed.

Lemma unvisited_keys_enter tbl n c vis :
  LookupType tbl n = Some (SymClass c) -> set_mem n vis = false ->
  unvisited_keys tbl (set_insert n vis) < unvisited_keys tbl vis.
Proof.
  intros Hl Hm. unfold unvisited_keys.
  apply (filter_length_strict _ _ tbl (n, SymClass c)).
  - intros [k s] _. rewrite set_mem_insert. destruct (is_class_sym s), (String.eqb k n), (set_mem k vis); auto.
  - apply LookupType_In, Hl.
  - simpl. rewrite Hm. reflexivity.
  - simpl. rewrite set_mem_insert, String.eqb_refl. reflexivity.
Qed.

Lemma unvisited_classes_insert tbl n vis :
  unvisited_classes tbl (set_insert n vis) <= unvisited_classes tbl vis.
Proof.
  unfold unvisited_classes. apply filter_length_mono. intros [k [| | c]] _; auto.
  rewrite set_mem_insert. destruct (String.eqb (c_name c) n), (set_mem (c_name c) vis); auto.
Qed.

Lemma unvisited_classes_enter tbl k c vis :
  In (k, SymClass c) tbl -> set_mem (c_name c) vis = false ->
  unvisited_classes tbl (set_insert (c_name c) vis) < unvisited_classes tbl vis.
Proof.
  intros Hin Hm. unfold unvisited_classes.
  apply (filter_length_strict _ _ tbl (k, SymClass c)); auto.
  - intros [k' [| | c']] _; auto.
    rewrite set_mem_insert. destruct (String.eqb (c_name c') (c_name c)), (set_mem (c_name c') vis); auto.
  - simpl. rewrite Hm. reflexivity.
  - simpl. rewrite set_mem_insert, String.eqb_refl. reflexivity.
Qed.

Lemma unvisited_keys_le tbl vis : unvisited_keys tbl vis <= length tbl.
Proof. unfold unvisited_keys. apply filter_length_le. Qed.

Lemma unvisited_classes_le tbl vis : unvisited_classes tbl vis <= length tbl.
Proof. unfold unvisited_classes. apply filter_length_le. Qed.

Lemma HasInheritanceCycle_fuel_enough fuel tbl n vis :
  unvisited_keys tbl vis < fuel -> exists r, HasInheritanceCycle_fuel fuel tbl n vis = Some r.
Proof.
  revert n vis. induction fuel as [| f IH]; intros n vis H; [lia |]. simpl.
  destruct (set_mem n vis) eqn:Hm; [eauto |].
  destruct (LookupType tbl n) as [[| | c] |] eqn:Hl; eauto.
  destruct (HasExplicitBase c); eauto.
  apply IH. pose proof (unvisited_keys_enter tbl n c vis Hl Hm). lia.
Qed.

Lemma HasInheritanceCycle_fuel_mono fuel fuel' tbl n vis r :
  HasInheritanceCycle_fuel fuel tbl n vis = Some r -> fuel <= fuel' ->
  HasInheritanceCycle_fuel fuel' tbl n vis = Some r.
Proof.
  revert fuel' n vis. induction fuel as [| f IH]; intros fuel' n vis H Hle; [discriminate |].
  destruct fuel' as [| f']; [lia |]. simpl in *.
  destruct (set_mem n vis); [exact H |].
  destruct (LookupType tbl n) as [[| | c] |]; try exact H.
  destruct (HasExplicitBase c); [| exact H].
  apply IH; [exact H | lia].
Qed.

Lemma GetAllFieldsHelper_fuel_enough fuel tbl c af vis :
  unvisited_classes tbl (set_insert (c_name c) vis) + 1 < fuel ->
  exists r, GetAllFieldsHelper_fuel fuel tbl c af vis = Some r.
Proof.
  revert c af vis. induction fuel as [| f IH]; intros c af vis H; [lia |]. simpl.
  destruct (set_mem (c_name c) vis) eqn:Hm; [eauto |].
  destruct (HasExplicitBase c); [| eauto].
  destruct (LookupType tbl (c_baseType c)) as [[| | b] |] eqn:Hl; eauto.
  destruct (set_mem (c_name b) (set_insert (c_name c) vis)) eqn:Hb.
  - destruct f as [| f']; [lia |]. simpl. rewrite Hb. eauto.
  - pose proof (unvisited_classes_enter tbl _ b _ (LookupType_In _ _ _ Hl) Hb).
    destruct (IH b af (set_insert (c_name c) vis)) as [[af' vis'] E]; [lia |].
    rewrite E. eauto.
Qed.

Lemma GetAllFieldsHelper_fuel_mono fuel fuel' tbl c af vis r :
  GetAllFieldsHelper_fuel fuel tbl c af vis = Some r -> fuel <= fuel' ->
  GetAllFieldsHelper_fuel fuel' tbl c af vis = Some r.
Proof.
  revert fuel' c af vis r. induction fuel as [| f IH]; intros fuel' c af vis r H Hle; [discriminate |].
  destruct fuel' as [| f']; [lia |]. simpl in *.
  destruct (set_mem (c_name c) vis); [exact H |].
  destruct (HasExplicitBase c); [| exact H].
  destruct (LookupType tbl (c_baseType c)) as [[| | b] |]; try exact H.
  destruct (GetAllFieldsHelper_fuel f tbl b af _) as [[af1 vis1] |] eqn:E; [| discriminate].
  rewrite (IH f' b af _ _ E) by lia. exact H.
Qed.

Lemma GetAllInvariantsHelper_fuel_enough fuel tbl c ai vis :
  unvisited_classes tbl (set_insert (c_name c) vis) + 1 < fuel ->
  exists r, GetAllInvariantsHelper_fuel fuel tbl c ai vis = Some r.
Proof.
  revert c ai vis. induction fuel as [| f IH]; intros c ai vis H; [lia |]. simpl.
  destruct (set_mem (c_name c) vis) eqn:Hm; [eauto |].
  destruct (HasExplicitBase c); [| eauto].
  destruct (LookupType tbl (c_baseType c)) as [[| | b] |] eqn:Hl; eauto.
  destruct (set_mem (c_name b) (set_insert (c_name c) vis)) eqn:Hb.
  - destruct f as [| f']; [lia |]. simpl. rewrite Hb. eauto.
  - pose proof (unvisited_classes_enter tbl _ b _ (LookupType_In _ _ _ Hl) Hb).
    destruct (IH b ai (set_insert (c_name c) vis)) as [[ai' vis'] E]; [lia |].
    rewrite E. eauto.
Qed.

Lemma GetAllInvariantsHelper_fuel_mono fuel fuel' tbl c ai vis r :
  GetAllInvariantsHelper_fuel fuel tbl c ai vis = Some r -> fuel <= fuel' ->
  GetAllInvariantsHelper_fuel fuel' tbl c ai vis = Some r.
Proof.
  revert fuel' c ai vis r. induction fuel as [| f IH]; intros fuel' c ai vis r H Hle; [discriminate |].
  destruct fuel' as [| f']; [lia |]. simpl in *.
  destruct (set_mem (c_name c) vis); [exact H |].
  destruct (HasExplicitBase c); [| exact H].
  destruct (LookupType tbl (c_baseType c)) as [[| | b] |]; try exact H.
  destruct (GetAllInvariantsHelper_fuel f tbl b ai _) as [[ai1 vis1] |] eqn:E; [| discriminate].
  rewrite (IH f' b ai _ _ E) by lia. exact H.
Qed.

(** C9: each inheritance walk (cycle detection, field collection,
    invariant collection) terminates on every symbol table, cyclic or
    not, within [length table + 2] steps, whatever visited set it starts
    from; more fuel does not change its result. *)
Theorem inheritance_walks_terminate tbl :
  (forall className visited, exists r,
     HasInheritanceCycle_fuel (walk_fuel tbl) tbl className visited = Some r
     /\ forall fuel, walk_fuel tbl <= fuel ->
        HasInheritanceCycle_fuel fuel tbl className visited = Some r)
  /\ (forall c allFields visited, exists r,
     GetAllFieldsHelper_fuel (walk_fuel tbl) tbl c allFields visited = Some r
     /\ forall fuel, walk_fuel tbl <= fuel ->
        GetAllFieldsHelper_fuel fuel tbl c allFields visited = Some r)
  /\ (forall c allInvariants visited, exists r,
     GetAllInvariantsHelper_fuel (walk_fuel tbl) tbl c allInvariants visited = Some r
     /\ forall fuel, walk_fuel tbl <= fuel ->
        GetAllInvariantsHelper_fuel fuel tbl c allInvariants visited = Some r).
Proof.
  unfold walk_fuel. split; [| split].
  - intros n vis.
    destruct (HasInheritanceCycle_fuel_enough (S (S (length tbl))) tbl n vis) as [r E].
    { pose proof (unvisited_keys_le tbl vis). lia. }
    exists r. split; [exact E |]. intros fuel Hf. eapply HasInheritanceCycle_fuel_mono; eauto.
  - intros c af vis.
    destruct (GetAllFieldsHelper_fuel_enough (S (S (length tbl))) tbl c af vis) as [r E].
    { pose proof (unvisited_classes_le tbl (set_insert (c_name c) vis)). lia. }
    exists r. split; [exact E |]. intros fuel Hf. eapply GetAllFieldsHelper_fuel_mono; eauto.
  - intros c ai vis.
    destruct (GetAllInvariantsHelper_fuel_enough (S (S (length tbl))) tbl c ai vis) as [r E].
    { pose proof (unvisited_classes_le tbl (set_insert (c_name c) vis)). lia. }
    exists r. split; [exact E |]. intros fuel Hf. eapply GetAllInvariantsHelper_fuel_mono; eauto.
Qed.

(** ** Symbol table construction, exactly *)

Lemma NoDup_app_intro {A} (l l' : list A) :
  NoDup l -> NoDup l' -> (forall x, In x l -> ~ In x l') -> NoDup (l ++ l').
Proof.
  induction l as [| a rest IH]; intros Hl Hl' Hd; simpl; [exact Hl' |].
  inversion Hl as [| ? ? Ha Hrest]; subst.
  constructor.
  - rewrite in_app_iff. intros [H | H]; [contradiction | exact (Hd a (or_introl eq_refl) H)].
  - apply IH; auto. intros x Hx. apply Hd. right. exact Hx.
Qed.

Lemma LookupType_notin tbl n : ~ In n (map fst tbl) -> LookupType tbl n = None.
Proof.
  induction tbl as [| [k s] rest IH]; intros H; simpl; [reflexivity |].
  destruct (String.eqb k n) eqn:E.
  - apply String.eqb_eq in E. subst. exfalso. apply H. left. reflexivity.
  - apply IH. intros Hin. apply H. right. exact Hin.
Qed.

Lemma LookupType_None_notin tbl n : LookupType tbl n = None -> ~ In n (map fst tbl).
Proof.
  induction tbl as [| [k s] rest IH]; intros H; simpl; [tauto |].
  simpl in H. destruct (String.eqb k n) eqn:E; [discriminate |].
  apply String.eqb_neq in E. intros [Hk | Hin]; [contradiction | exact (IH H Hin)].
Qed.

Lemma LookupType_app_notin tbl tbl' n :
  ~ In n (map fst tbl) -> LookupType (tbl ++ tbl') n = LookupType tbl' n.
Proof.
  induction tbl as [| [k s] rest IH]; intros H; simpl; [reflexivity |].
  destruct (String.eqb k n) eqn:E.
  - apply String.eqb_eq in E. subst. exfalso. apply H. left. reflexivity.
  - apply IH. intros Hin. apply H. right. exact Hin.
Qed.

Lemma RegisterPrimitiveTypes_keys : map fst (RegisterPrimitiveTypes []) = PrimitiveNames.
Proof. reflexivity. Qed.

Lemma PrimitiveNames_NoDup : NoDup PrimitiveNames.
Proof.
  unfold PrimitiveNames.
  repeat constructor; simpl; intuition discriminate.
Qed.

(** With pairwise distinct names (none already in the table), every
    declaration is registered, in order, and nothing is reported. *)
Lemma BuildSymbolTable_distinct ast s :
  NoDup (map fst (symbolTable_ s) ++ map decl_name ast) ->
  BuildSymbolTable ast s =
  (true, mkAState (symbolTable_ s ++ map (fun d => (decl_name d, decl_symbol d)) ast)
           (hasErrors_ s) (diagnostics s)).
Proof.
  unfold BuildSymbolTable. revert s.
  induction ast as [| d rest IH]; intros s H.
  - simpl. destruct s. rewrite app_nil_r. reflexivity.
  - rewrite for_each_success_cons, RegisterDeclaration_eq.
    simpl in H.
    assert (Hn : ~ In (decl_name d) (map fst (symbolTable_ s))).
    { intros Hin. apply (NoDup_remove_2 _ _ _ H). apply in_app_iff. left. exact Hin. }
    unfold TypeExists. rewrite (LookupType_notin _ _ Hn).
    unfold map_insert, TypeExists. rewrite (LookupType_notin _ _ Hn).
    rewrite IH.
    + simpl. rewrite <- app_assoc. reflexivity.
    + simpl. rewrite map_app, <- app_assoc. exact H.
Qed.

(** When two names clash (or one clashes with the table), symbol-table
    construction fails. *)
Lemma BuildSymbolTable_duplicate ast s :
  NoDup (map fst (symbolTable_ s)) ->
  ~ NoDup (map fst (symbolTable_ s) ++ map decl_name ast) ->
  fst (BuildSymbolTable ast s) = false.
Proof.
  unfold BuildSymbolTable. revert s.
  induction ast as [| d rest IH]; intros s Hk H.
  - simpl in H. rewrite app_nil_r in H. contradiction.
  - rewrite for_each_success_cons, RegisterDeclaration_eq.
    destruct (TypeExists (symbolTable_ s) (decl_name d)) eqn:E.
    + destruct (for_each_success RegisterDeclaration rest _). reflexivity.
    + unfold TypeExists in E.
      destruct (LookupType (symbolTable_ s) (decl_name d)) eqn:El; [discriminate |].
      pose proof (LookupType_None_notin _ _ El) as Hn.
      assert (Hins : map_insert (symbolTable_ s) (decl_name d) (decl_symbol d)
                     = symbolTable_ s ++ [(decl_name d, decl_symbol d)]).
      { unfold map_insert, TypeExists. rewrite El. reflexivity. }
      specialize (IH (mkAState (map_insert (symbolTable_ s) (decl_name d) (decl_symbol d))
                        (hasErrors_ s) (diagnostics s))).
      rewrite Hins in IH |- *. simpl in IH. rewrite map_app in IH. simpl in IH.
      destruct (for_each_success RegisterDeclaration rest _) as [b s2]. simpl in *.
      rewrite IH; [reflexivity | |].
      * apply NoDup_app_intro; [exact Hk | constructor; [tauto | constructor] |].
        intros x Hx [Hx' | []]. subst. contradiction.
      * rewrite <- app_assoc. exact H.
Qed.

(** The two passes of [ValidateTypeReferences], run one after the other. *)
Lemma ValidateTypeReferences_eq ast s :
  ValidateTypeReferences ast s =
  let (a, s1) := for_each_success (on_class ValidateClassDeclaration) ast s in
  let (b, s2) := for_each_success (on_class CheckInheritanceCycle) ast s1 in (a && b, s2).
Proof.
  unfold ValidateTypeReferences, bind, ret.
  destruct (for_each_success (on_class ValidateClassDeclaration) ast s) as [a s1].
  destruct (for_each_success (on_class CheckInheritanceCycle) ast s1). reflexivity.
Qed.

Lemma first_pass_rep ast :
  RepB true (fun _ => True) (for_each_success (on_class ValidateClassDeclaration) ast).
Proof.
  apply RepB_for; intros [e | c] _; simpl; [repb | apply ValidateClassDeclaration_rep].
Qed.

Lemma second_pass_body_rep d : RepB true (fun _ => True) (on_class CheckInheritanceCycle d).
Proof. destruct d as [e | c]; simpl; [repb |]. unfold CheckInheritanceCycle. repb. Qed.

(** A loop body that fails and reports [dg] on every state with the
    current table makes the whole loop fail with [dg] among its
    diagnostics, wherever the body sits in the list. *)
Lemma for_each_success_reports {A} (body : A -> M bool) xs x dg s :
  (forall y, RepB true (fun _ => True) (body y)) ->
  In x xs ->
  (forall s', symbolTable_ s' = symbolTable_ s ->
     fst (body x s') = false /\ In dg (diagnostics (snd (body x s')))) ->
  fst (for_each_success body xs s) = false
  /\ In dg (diagnostics (snd (for_each_success body xs s))).
Proof.
  intros Hrep. revert s. induction xs as [| y rest IH]; intros s Hin Hx; [destruct Hin |].
  rewrite for_each_success_cons.
  destruct (Hrep y s) as [new1 [E1 _]].
  destruct Hin as [Heq | Hin].
  - subst y. destruct (Hx s eq_refl) as [F D].
    destruct (body x s) as [a s1] eqn:Eb. simpl in F, D, E1. subst a.
    destruct (RepB_for (fun _ => True) body rest (fun z _ => Hrep z) s1) as [new2 [E2 _]].
    destruct (for_each_success body rest s1) as [b s2]. simpl in *.
    split; [reflexivity |]. rewrite E2. simpl. apply in_app_iff. left. exact D.
  - destruct (body y s) as [a s1] eqn:Eb. simpl in E1. subst s1.
    destruct (IH (mkAState (symbolTable_ s) (hasErrors_ s || negb (list_empty new1))
                    (diagnostics s ++ new1)) Hin) as [F D].
    { intros s' Hs'. apply Hx. simpl in Hs'. exact Hs'. }
    destruct (for_each_success body rest _) as [b s2]. simpl in *.
    split; [rewrite F; apply andb_false_r | exact D].
Qed.

(** In a table where [cA]'s base is the class [cB] whose base is [cA],
    the cycle check of [cA] reports [CircularInheritance]. *)
Lemma CheckInheritanceCycle_two_cycle cA cB s :
  c_baseType cA = c_name cB -> c_baseType cB = c_name cA ->
  c_name cA <> c_name cB -> c_name cA <> "" -> c_name cB <> "" ->
  LookupType (symbolTable_ s) (c_name cB) = Some (SymClass cB) ->
  CheckInheritanceCycle cA s =
  (false, mkAState (symbolTable_ s) true (diagnostics s ++ [CircularInheritance (c_name cA)])).
Proof.
  intros HbA HbB Hne HA HB Hl.
  assert (EA : String.eqb (c_name cA) "" = false) by (apply String.eqb_neq; exact HA).
  assert (EB : String.eqb (c_name cB) "" = false) by (apply String.eqb_neq; exact HB).
  assert (EAB : String.eqb (c_name cB) (c_name cA) = false)
    by (apply String.eqb_neq; intro; apply Hne; symmetry; assumption).
  assert (Hc : HasInheritanceCycle (symbolTable_ s) (c_name cB) (set_insert (c_name cA) []) = true).
  { unfold HasInheritanceCycle, walk_fuel.
    change (set_insert (c_name cA) []) with [c_name cA].
    cbn [HasInheritanceCycle_fuel set_mem]. rewrite EAB, Hl. cbn [orb].
    unfold HasExplicitBase. rewrite HbB, EA. cbn [negb HasInheritanceCycle_fuel].
    rewrite set_mem_insert. cbn [set_mem]. rewrite String.eqb_refl, !orb_true_r. reflexivity. }
  unfold CheckInheritanceCycle, HasExplicitBase. rewrite HbA, EB. cbn [negb].
  unfold bind, get_table. rewrite Hc. reflexivity.
Qed.

(** ** Duplicate type names *)

(** C3 (amended): a duplicated type name (between two declarations, or
    with a primitive type) makes [Analyze] fail right after symbol-table
    construction; the run reports only [DuplicateTypeName] diagnostics, at
    least one, and no per-class validator runs. *)
Theorem duplicate_type_name_stops_analysis ast :
  ~ NoDup (PrimitiveNames ++ map decl_name ast) ->
  fst (RunAnalyze ast) = false
  /\ diagnostics (snd (RunAnalyze ast)) <> []
  /\ Forall (fun d => is_duplicate_type_name d = true) (diagnostics (snd (RunAnalyze ast))).
Proof.
  intros Hdup. unfold RunAnalyze. rewrite Analyze_eq. cbv zeta.
  set (s0 := mkAState (RegisterPrimitiveTypes (symbolTable_ initial_state))
               (hasErrors_ initial_state) (diagnostics initial_state)).
  assert (Hk : map fst (symbolTable_ s0) = PrimitiveNames) by exact RegisterPrimitiveTypes_keys.
  pose proof (BuildSymbolTable_duplicate ast s0) as Hf.
  rewrite Hk in Hf. specialize (Hf PrimitiveNames_NoDup Hdup).
  destruct (BuildSymbolTable_rep ast s0) as [t1 [new [E [F R]]]].
  destruct (BuildSymbolTable ast s0) as [okB s1]. simpl in Hf, E, R. subst okB s1.
  simpl. split; [reflexivity | split; [exact (R eq_refl) | exact F]].
Qed.

Lemma duplicate_type_name_stops_analysis_witness :
  ~ NoDup (PrimitiveNames ++ map decl_name [ClassDecl DupFieldClass; EnumDecl DupEnum])
  /\ fst (RunAnalyze [ClassDecl DupFieldClass; EnumDecl DupEnum]) = false
  /\ diagnostics (snd (RunAnalyze [ClassDecl DupFieldClass; EnumDecl DupEnum])) <> []
  /\ Forall (fun d => is_duplicate_type_name d = true)
       (diagnostics (snd (RunAnalyze [ClassDecl DupFieldClass; EnumDecl DupEnum]))).
Proof.
  assert (H : ~ NoDup (PrimitiveNames ++ map decl_name [ClassDecl DupFieldClass; EnumDecl DupEnum])).
  { intro Hn. refine (NoDup_remove_2 (PrimitiveNames ++ ["Order"]) [] "Order" Hn _).
    simpl. tauto. }
  split; [exact H | apply (duplicate_type_name_stops_analysis _ H)].
Defined.

(** C3 is refuted: the class [Order] repeats its field [x], which alone
    gives [DuplicateField]; once an enum also named [Order] follows, the
    run stops at [DuplicateTypeName] and the field check never runs. *)
Lemma duplicate_type_name_skips_validators_counterexample :
  diagnostics (snd (RunAnalyze [ClassDecl DupFieldClass])) = [DuplicateField "x" "Order"]
  /\ diagnostics (snd (RunAnalyze [ClassDecl DupFieldClass; EnumDecl DupEnum]))
     = [DuplicateTypeName "Order"].
Proof. vm_compute. split; reflexivity. Qed.

(** ** Two-class inheritance cycles *)

Lemma two_class_table cA cB ast :
  c_name cA <> c_name cB ->
  ~ In (c_name cA) PrimitiveNames -> ~ In (c_name cB) PrimitiveNames ->
  ast = [ClassDecl cA; ClassDecl cB] \/ ast = [ClassDecl cB; ClassDecl cA] ->
  LookupType (RegisterPrimitiveTypes [] ++ map (fun d => (decl_name d, decl_symbol d)) ast)
    (c_name cA) = Some (SymClass cA)
  /\ LookupType (RegisterPrimitiveTypes [] ++ map (fun d => (decl_name d, decl_symbol d)) ast)
    (c_name cB) = Some (SymClass cB).
Proof.
  intros Hne HA HB Hast.
  rewrite !LookupType_app_notin by (rewrite RegisterPrimitiveTypes_keys; assumption).
  assert (E1 : String.eqb (c_name cA) (c_name cB) = false) by (apply String.eqb_neq; exact Hne).
  assert (E2 : String.eqb (c_name cB) (c_name cA) = false)
    by (apply String.eqb_neq; intro; apply Hne; symmetry; assumption).
  destruct Hast; subst; simpl; rewrite ?E1, ?E2, !String.eqb_refl; split; reflexivity.
Qed.

(** C7 (amended): two classes [A] and [B], each the base of the other,
    with distinct names that are not primitive type names: in either
    declaration order [Analyze] fails and reports [CircularInheritance]
    for both classes. *)
Theorem two_class_cycle_reported cA cB ast :
  c_baseType cA = c_name cB -> c_baseType cB = c_name cA ->
  c_name cA <> c_name cB -> c_name cA <> "" -> c_name cB <> "" ->
  ~ In (c_name cA) PrimitiveNames -> ~ In (c_name cB) PrimitiveNames ->
  ast = [ClassDecl cA; ClassDecl cB] \/ ast = [ClassDecl cB; ClassDecl cA] ->
  fst (RunAnalyze ast) = false
  /\ In (CircularInheritance (c_name cA)) (diagnostics (snd (RunAnalyze ast)))
  /\ In (CircularInheritance (c_name cB)) (diagnostics (snd (RunAnalyze ast))).
Proof.
  intros HbA HbB Hne HA HB HpA HpB Hast.
  destruct (two_class_table cA cB ast Hne HpA HpB Hast) as [LA LB].
  set (T := RegisterPrimitiveTypes [] ++ map (fun d => (decl_name d, decl_symbol d)) ast) in LA, LB.
  unfold RunAnalyze. rewrite Analyze_eq. cbv zeta.
  set (s0 := mkAState (RegisterPrimitiveTypes (symbolTable_ initial_state))
               (hasErrors_ initial_state) (diagnostics initial_state)).
  assert (Hnd : NoDup (map fst (symbolTable_ s0) ++ map decl_name ast)).
  { change (map fst (symbolTable_ s0)) with (map fst (RegisterPrimitiveTypes [])).
    rewrite RegisterPrimitiveTypes_keys.
    apply NoDup_app_intro; [exact PrimitiveNames_NoDup | |].
    - destruct Hast; subst; simpl; repeat constructor; simpl; intuition.
    - intros x Hx Hin. destruct Hast; subst; simpl in Hin;
        destruct Hin as [<- | [<- | []]]; contradiction. }
  rewrite (BuildSymbolTable_distinct ast s0 Hnd). cbn [negb].
  change (symbolTable_ s0 ++ map (fun d => (decl_name d, decl_symbol d)) ast) with T.
  rewrite ValidateTypeReferences_eq.
  set (s1 := mkAState T (hasErrors_ s0) (diagnostics s0)).
  destruct (first_pass_rep ast s1) as [new1 [E1 _]].
  destruct (for_each_success (on_class ValidateClassDeclaration) ast s1) as [a s2].
  simpl in E1. subst s2.
  set (s2 := mkAState (symbolTable_ s1) (hasErrors_ s1 || negb (list_empty new1))
               (diagnostics s1 ++ new1)).
  assert (Hcyc : forall c c', c_baseType c = c_name c' -> c_baseType c' = c_name c ->
             c_name c <> c_name c' -> c_name c <> "" -> c_name c' <> "" ->
             LookupType T (c_name c') = Some (SymClass c') -> In (ClassDecl c) ast ->
             fst (for_each_success (on_class CheckInheritanceCycle) ast s2) = false
             /\ In (CircularInheritance (c_name c))
                  (diagnostics (snd (for_each_success (on_class CheckInheritanceCycle) ast s2)))).
  { intros c c' H1 H2 H3 H4 H5 H6 H7.
    apply (for_each_success_reports _ ast (ClassDecl c)); [exact second_pass_body_rep | exact H7 |].
    intros s' Hs'. simpl on_class.
    rewrite (CheckInheritanceCycle_two_cycle c c' s' H1 H2 H3 H4 H5).
    - split; [reflexivity | apply in_app_iff; right; left; reflexivity].
    - rewrite Hs'. exact H6. }
  assert (InA : In (ClassDecl cA) ast) by (destruct Hast; subst; simpl; tauto).
  assert (InB : In (ClassDecl cB) ast) by (destruct Hast; subst; simpl; tauto).
  destruct (Hcyc cA cB HbA HbB Hne HA HB LB InA) as [F DA].
  destruct (Hcyc cB cA HbB HbA (fun e => Hne (eq_sym e)) HB HA LA InB) as [_ DB].
  assert (Es2 : s2 = mkAState T (negb (list_empty new1)) new1) by reflexivity.
  rewrite Es2 in F, DA, DB.
  destruct (for_each_success (on_class CheckInheritanceCycle) ast _) as [b s3].
  simpl in F, DA, DB. subst b. rewrite andb_false_r. simpl.
  split; [reflexivity | split; assumption].
Qed.

Lemma two_class_cycle_reported_witness :
  fst (RunAnalyze [ClassDecl CycleA; ClassDecl CycleB]) = false
  /\ In (CircularInheritance "A") (diagnostics (snd (RunAnalyze [ClassDecl CycleA; ClassDecl CycleB])))
  /\ In (CircularInheritance "B") (diagnostics (snd (RunAnalyze [ClassDecl CycleA; ClassDecl CycleB]))).
Proof.
  apply (two_class_cycle_reported CycleA CycleB [ClassDecl CycleA; ClassDecl CycleB]);
    [reflexivity | reflexivity | discriminate | discriminate | discriminate | | | left; reflexivity];
    unfold PrimitiveNames; simpl; intuition discriminate.
Defined.

(** C7 is refuted as stated: when one class of the cycle is named [Int],
    the run stops at [DuplicateTypeName] and no [CircularInheritance] is
    reported, in either order. *)
Lemma two_class_cycle_primitive_name_counterexample :
  RunAnalyze [ClassDecl IntCycleA; ClassDecl IntCycleB]
  = (false, mkAState (symbolTable_ (snd (RunAnalyze [ClassDecl IntCycleA; ClassDecl IntCycleB])))
              true [DuplicateTypeName "Int"])
  /\ RunAnalyze [ClassDecl IntCycleB; ClassDecl IntCycleA]
  = (false, mkAState (symbolTable_ (snd (RunAnalyze [ClassDecl IntCycleB; ClassDecl IntCycleA])))
              true [DuplicateTypeName "Int"]).
Proof. vm_compute. split; reflexivity. Qed.

(** ** Null declaration tree *)

(** C8: [Phase1] on a null AST stops at once: it prints only the
    null-AST error, runs no analyzer (no semantic diagnostic, no
    "started" status) and returns no analyzer.  A non-null AST never gets
    that error; it always starts with the "started" status, and a failed
    analysis ends with the distinct "failed with errors" line. *)
Theorem Phase1_null_ast driverHasErrors :
  Phase1 driverHasErrors None = (None, true, [ErrNullAst])
  /\ forall ast,
       ~ In ErrNullAst (snd (Phase1 driverHasErrors (Some ast)))
       /\ hd_error (snd (Phase1 driverHasErrors (Some ast))) = Some StatusPhase1Started
       /\ (fst (fst (Phase1 driverHasErrors (Some ast))) = None ->
           fst (RunAnalyze ast) = false
           /\ In ErrPhase1Failed (snd (Phase1 driverHasErrors (Some ast)))).
Proof.
  split; [reflexivity |]. intros ast. unfold Phase1.
  destruct (RunAnalyze ast) as [ok st]. destruct ok; simpl.
  - split; [| split; [reflexivity | discriminate]].
    intros [H | H]; [discriminate |]. apply in_app_iff in H.
    destruct H as [H | [H | []]]; [| discriminate].
    apply in_map_iff in H. destruct H as [? [H _]]. discriminate.
  - split; [| split; [reflexivity | intros _; split; [reflexivity |]]].
    + intros [H | H]; [discriminate |]. apply in_app_iff in H.
      destruct H as [H | [H | []]]; [| discriminate].
      apply in_map_iff in H. destruct H as [? [H _]]. discriminate.
    + right. apply in_app_iff. right. left. reflexivity.
Qed.

Lemma Phase1_null_ast_witness :
  Phase1 false None = (None, true, [ErrNullAst])
  /\ ~ In ErrNullAst (snd (Phase1 false (Some [ClassDecl CycleA; ClassDecl CycleB]))).
Proof.
  destruct (Phase1_null_ast false) as [H1 H2].
  split; [exact H1 | exact (proj1 (H2 [ClassDecl CycleA; ClassDecl CycleB]))].
Defined.

Lemma inheritance_walks_terminate_witness :
  exists r, HasInheritanceCycle_fuel (walk_fuel (RegisterPrimitiveTypes [] ++
              [("A", SymClass CycleA); ("B", SymClass CycleB)]))
              (RegisterPrimitiveTypes [] ++ [("A", SymClass CycleA); ("B", SymClass CycleB)])
              "B" ["A"] = Some r.
Proof.
  destruct (inheritance_walks_terminate
              (RegisterPrimitiveTypes [] ++ [("A", SymClass CycleA); ("B", SymClass CycleB)]))
    as [H _].
  destruct (H "B" ["A"]) as [r [E _]]. exists r. exact E.
Defined.

(** ** [std::set<std::string>] as a sorted list *)

Lemma ascii_compare_refl a : Ascii.compare a a = Eq.
Proof. unfold Ascii.compare. apply N.compare_refl. Qed.

Lemma string_compare_refl s : String.compare s s = Eq.
Proof. induction s as [| a r IH]; simpl; [reflexivity | rewrite ascii_compare_refl; exact IH]. Qed.

Lemma string_compare_trans_lt s1 s2 s3 :
  String.compare s1 s2 = Lt -> String.compare s2 s3 = Lt -> String.compare s1 s3 = Lt.
Proof.
  revert s2 s3. induction s1 as [| a r1 IH]; intros [| b r2] [| c r3]; simpl; try congruence.
  destruct (Ascii.compare a b) eqn:Eab; try discriminate;
  destruct (Ascii.compare b c) eqn:Ebc; try discriminate; intros H1 H2.
  - apply Ascii.compare_eq_iff in Eab. apply Ascii.compare_eq_iff in Ebc. subst.
    rewrite ascii_compare_refl. exact (IH _ _ H1 H2).
  - apply Ascii.compare_eq_iff in Eab. subst. rewrite Ebc. reflexivity.
  - apply Ascii.compare_eq_iff in Ebc. subst. rewrite Eab. reflexivity.
  - unfold Ascii.compare in *. rewrite N.compare_lt_iff in *.
    assert (E : (Ascii.N_of_ascii a ?= Ascii.N_of_ascii c)%N = Lt) by (apply N.compare_lt_iff; lia).
    rewrite E. reflexivity.
Qed.

Lemma strictly_sorted_cons a l :
  strictly_sorted (a :: l) = true <->
  (forall x, In x l -> String.compare a x = Lt) /\ strictly_sorted l = true.
Proof.
  revert a. induction l as [| b l IH]; intros a; simpl.
  - split; [intros _; split; [intros x [] | reflexivity] | reflexivity].
  - destruct (String.compare a b) eqn:E.
    + split; [discriminate |]. intros [H _]. rewrite H in E; [discriminate | left; reflexivity].
    + split.
      * intros H. split; [| exact H].
        intros x [<- | Hx]; [exact E |].
        apply (string_compare_trans_lt _ b); [exact E |].
        apply (proj1 (proj1 (IH b) H)). exact Hx.
      * intros [_ H]. exact H.
    + split; [discriminate |]. intros [H _]. rewrite H in E; [discriminate | left; reflexivity].
Qed.

Lemma strictly_sorted_NoDup l : strictly_sorted l = true -> NoDup l.
Proof.
  induction l as [| a l IH]; intros H; constructor.
  - intros Hin. apply strictly_sorted_cons in H. destruct H as [H _].
    specialize (H a Hin). rewrite string_compare_refl in H. discriminate.
  - apply IH. apply strictly_sorted_cons in H. tauto.
Qed.

Lemma set_insert_In x y s : In x (set_insert y s) <-> x = y \/ In x s.
Proof.
  induction s as [| z rest IH]; simpl; [intuition congruence |].
  destruct (String.compare y z) eqn:E; simpl.
  - apply String.compare_eq_iff in E. subst. intuition congruence.
  - intuition congruence.
  - rewrite IH. intuition congruence.
Qed.

Lemma set_insert_sorted y s : strictly_sorted s = true -> strictly_sorted (set_insert y s) = true.
Proof.
  induction s as [| z rest IH]; intros H; simpl; [reflexivity |].
  destruct (String.compare y z) eqn:E.
  - exact H.
  - simpl. rewrite E. exact H.
  - apply strictly_sorted_cons in H. destruct H as [Hz Hr].
    apply strictly_sorted_cons. split; [| exact (IH Hr)].
    intros x Hx. apply set_insert_In in Hx. destruct Hx as [-> | Hx]; [| exact (Hz x Hx)].
    rewrite String.compare_antisym, E. reflexivity.
Qed.

Lemma set_mem_In x s : set_mem x s = true <-> In x s.
Proof.
  induction s as [| y rest IH]; simpl; [split; [discriminate | tauto] |].
  rewrite orb_true_iff, IH, String.eqb_eq. split; intros [H | H]; auto.
Qed.

Lemma CollectFieldReferences_spec e acc :
  strictly_sorted acc = true ->
  strictly_sorted (CollectFieldReferences e acc) = true
  /\ forall x, In x (CollectFieldReferences e acc) <-> In x acc \/ In x (RefNames e).
Proof.
  revert acc. induction e using Expression_nested_ind; intros acc Hs; simpl.
  - destruct (IHe1 acc Hs) as [S1 M1]. destruct (IHe2 _ S1) as [S2 M2].
    split; [exact S2 |]. intros x. rewrite M2, M1, in_app_iff. tauto.
  - exact (IHe acc Hs).
  - split; [apply set_insert_sorted; exact Hs |]. intros x. rewrite set_insert_In. simpl. intuition congruence.
  - exact (IHe acc Hs).
  - split; [exact Hs | tauto].
  - revert acc Hs. induction H as [| a rest Ha Hrest IH]; intros acc Hs.
    + split; [exact Hs | simpl; tauto].
    + destruct (Ha acc Hs) as [S1 M1]. destruct (IH _ S1) as [S2 M2].
      split; [exact S2 |]. intros x. rewrite M2, M1, in_app_iff. tauto.
  - exact (IHe acc Hs).
Qed.

(** X1: [CollectFieldReferences] adds to its set exactly the names of
    the field references of the expression (for a member access, the
    object's references, never the member name), and the result is still
    a sorted set, so each name appears once. *)
Theorem CollectFieldReferences_set e acc :
  strictly_sorted acc = true ->
  strictly_sorted (CollectFieldReferences e acc) = true
  /\ forall x, In x (CollectFieldReferences e acc) <-> In x acc \/ In x (RefNames e).
Proof. exact (CollectFieldReferences_spec e acc). Qed.

Lemma CollectFieldReferences_set_witness :
  strictly_sorted [] = true
  /\ strictly_sorted (CollectFieldReferences
       (BinaryExpression (FieldReference "b") ADD
          (MemberAccessExpression (FieldReference "a") "m")) []) = true
  /\ forall n, In n (CollectFieldReferences
       (BinaryExpression (FieldReference "b") ADD
          (MemberAccessExpression (FieldReference "a") "m")) []) <->
     In n [] \/ In n (RefNames (BinaryExpression (FieldReference "b") ADD
          (MemberAccessExpression (FieldReference "a") "m"))).
Proof.
  split; [reflexivity |].
  apply CollectFieldReferences_set. reflexivity.
Defined.

(** ** Exact output of a validator

    [Emits t m out]: run on any state whose table is [t], [m] keeps the
    table, appends exactly [out] to the diagnostics, sets [hasErrors_]
    iff [out] is not empty, and returns [true] iff [out] is empty. *)
Definition Emits (t : SymbolTable) (m : M bool) (out : list Diagnostic) : Prop :=
  forall h d, m (mkAState t h d) =
              (list_empty out, mkAState t (h || negb (list_empty out)) (d ++ out)).

Lemma list_empty_app {A} (l1 l2 : list A) :
  list_empty (l1 ++ l2) = list_empty l1 && list_empty l2.
Proof. destruct l1; reflexivity. Qed.

Lemma list_empty_map {A B} (f : A -> B) l : list_empty (map f l) = list_empty l.
Proof. destruct l; reflexivity. Qed.

Lemma list_empty_true {A} (l : list A) : list_empty l = true <-> l = [].
Proof. destruct l; simpl; split; congruence. Qed.

Lemma Emits_state t m out s :
  Emits t m out -> symbolTable_ s = t ->
  m s = (list_empty out, mkAState t (hasErrors_ s || negb (list_empty out)) (diagnostics s ++ out)).
Proof. intros H <-. destruct s as [t h d]. apply H. Qed.

Lemma Emits_ret t : Emits t (ret true) [].
Proof. intros h d. unfold ret. simpl. rewrite orb_false_r, app_nil_r. reflexivity. Qed.

Lemma Emits_report t dg : Emits t (ReportError dg ;;; ret false) [dg].
Proof. intros h d. unfold bind, ReportError, ret. simpl. rewrite orb_true_r. reflexivity. Qed.

Lemma Emits_get t k out : Emits t (k t) out -> Emits t (bind get_table k) out.
Proof. intros H h d. apply H. Qed.

Lemma Emits_and t m1 m2 o1 o2 :
  Emits t m1 o1 -> Emits t m2 o2 ->
  Emits t (ok <- m1 ;; ok2 <- m2 ;; ret (ok && ok2)) (o1 ++ o2).
Proof.
  intros H1 H2 h d. unfold bind. rewrite H1, H2. unfold ret.
  rewrite list_empty_app, app_assoc, negb_andb, orb_assoc. reflexivity.
Qed.

Lemma Emits_if t m out :
  Emits t m out -> Emits t (ok <- m ;; if ok then ret true else ret false) out.
Proof. intros H h d. unfold bind. rewrite H. destruct (list_empty out); reflexivity. Qed.

Lemma Emits_for {A} t (body : A -> M bool) (f : A -> list Diagnostic) xs :
  (forall x, In x xs -> Emits t (body x) (f x)) ->
  Emits t (for_each_success body xs) (flat_map f xs).
Proof.
  induction xs as [| x rest IH]; intros H; [apply Emits_ret |].
  exact (Emits_and t _ _ _ _ (H x (or_introl eq_refl))
           (IH (fun y Hy => H y (or_intror Hy)))).
Qed.

Lemma Emits_out t m o1 o2 : o1 = o2 -> Emits t m o1 -> Emits t m o2.
Proof. intros ->. exact (fun H => H). Qed.

Lemma flat_map_nil_iff {A B} (f : A -> list B) l :
  flat_map f l = [] <-> forall x, In x l -> f x = [].
Proof.
  induction l as [| x rest IH]; simpl; [tauto |].
  rewrite <- list_empty_true, list_empty_app, andb_true_iff, !list_empty_true, IH.
  split; [intros [H1 H2] y [<- | Hy]; auto | intros H; split; auto].
Qed.

Lemma field_names_In x fs : In x (field_names fs) <-> In x (map f_name fs).
Proof.
  unfold field_names.
  assert (G : forall acc, In x (fold_left (fun acc f => set_insert (f_name f) acc) fs acc)
                          <-> In x acc \/ In x (map f_name fs)).
  { induction fs as [| f rest IH]; intros acc; simpl; [tauto |].
    rewrite IH, set_insert_In. intuition congruence. }
  rewrite G. simpl. tauto.
Qed.

Lemma set_mem_field_names x fs : set_mem x (field_names fs) = true <-> In x (map f_name fs).
Proof. rewrite set_mem_In. apply field_names_In. Qed.

Lemma CollectFieldReferences_In x e : In x (CollectFieldReferences e []) <-> In x (RefNames e).
Proof.
  destruct (CollectFieldReferences_spec e [] eq_refl) as [_ H]. rewrite H. simpl. tauto.
Qed.

(** [FieldUniquenessLoop] from a seen set: the repeated names it reports. *)
Lemma FieldUniquenessLoop_emits t c fs seen :
  exists dn,
    Emits t (FieldUniquenessLoop c fs seen) (map (fun n => DuplicateField n (c_name c)) dn)
    /\ forall n, count_occ string_dec dn n =
                 if set_mem n seen then count_occ string_dec (map f_name fs) n
                 else count_occ string_dec (map f_name fs) n - 1.
Proof.
  revert seen. induction fs as [| f rest IH]; intros seen.
  - exists []. split; [apply Emits_ret |]. intros n. simpl. destruct (set_mem n seen); reflexivity.
  - destruct (IH (set_insert (f_name f) seen)) as [dn [E C]].
    cbn [FieldUniquenessLoop].
    destruct (set_mem (f_name f) seen) eqn:Hm.
    + exists (f_name f :: dn). split.
      * exact (Emits_and t _ _ _ _ (Emits_report t _) E).
      * intros n. specialize (C n). rewrite set_mem_insert in C. simpl.
        destruct (string_dec (f_name f) n) as [<- | Hne].
        -- rewrite String.eqb_refl, Hm in C. simpl in C. rewrite Hm. lia.
        -- apply String.eqb_neq in Hne as Hne'. rewrite String.eqb_sym, Hne' in C.
           simpl in C. exact C.
    + exists dn. split.
      * exact (Emits_and t _ _ _ _ (Emits_ret t) E).
      * intros n. specialize (C n). rewrite set_mem_insert in C. simpl.
        destruct (string_dec (f_name f) n) as [<- | Hne].
        -- rewrite String.eqb_refl in C. simpl in C. rewrite Hm. lia.
        -- apply String.eqb_neq in Hne as Hne'. rewrite String.eqb_sym, Hne' in C.
           simpl in C. exact C.
Qed.

(** X2: [ValidateFieldUniqueness] checks the own and inherited fields
    together. It keeps the table and reports [DuplicateField] once for
    every repeated occurrence of a name (a name occurring k times is
    reported k-1 times), and it succeeds iff the names are distinct. *)
Theorem ValidateFieldUniqueness_reports c s :
  exists dn,
    ValidateFieldUniqueness c s =
      (list_empty dn,
       mkAState (symbolTable_ s) (hasErrors_ s || negb (list_empty dn))
                (diagnostics s ++ map (fun n => DuplicateField n (c_name c)) dn))
    /\ (forall n, count_occ string_dec dn n =
                  count_occ string_dec (map f_name (GetAllFields (symbolTable_ s) c)) n - 1)
    /\ (dn = [] <-> NoDup (map f_name (GetAllFields (symbolTable_ s) c))).
Proof.
  destruct s as [t h d]. simpl.
  destruct (FieldUniquenessLoop_emits t c (GetAllFields t c) []) as [dn [E C]].
  exists dn. split; [| split].
  - change (ValidateFieldUniqueness c (mkAState t h d))
      with (FieldUniquenessLoop c (GetAllFields t c) [] (mkAState t h d)).
    rewrite E, list_empty_map. reflexivity.
  - exact C.
  - rewrite (NoDup_count_occ string_dec). split.
    + intros -> n. specialize (C n). simpl in C. lia.
    + intros H. destruct dn as [| x rest]; [reflexivity |].
      specialize (C x). specialize (H x). simpl in C.
      destruct (string_dec x x) as [_ | []]; [lia | reflexivity].
Qed.

(** Output of [ValidateInvariants] against the field names [fn]. *)
Definition invariant_reports (c : ClassDeclaration) (fn : StringSet) (inv : Invariant)
  : list Diagnostic :=
  match inv_expression inv with
  | None => [InvariantMissingExpression (inv_name inv) (c_name c)]
  | Some e =>
      flat_map (fun x => if set_mem x fn then []
                         else [InvariantUndefinedFieldReference (inv_name inv) (c_name c) x])
               (CollectFieldReferences e [])
  end.

Lemma ValidateInvariants_emits t c :
  Emits t (ValidateInvariants c)
    (flat_map (invariant_reports c (field_names (GetAllFields t c))) (c_invariants c)).
Proof.
  apply Emits_get. apply Emits_for. intros inv _. unfold invariant_reports.
  destruct (inv_expression inv) as [e |]; [| apply Emits_report].
  apply Emits_for. intros x _.
  destruct (set_mem x (field_names (GetAllFields t c))); [apply Emits_ret | apply Emits_report].
Qed.

(** X3: [ValidateInvariants] checks only the class's own invariants,
    against its own and inherited fields. It succeeds (reporting nothing)
    iff every own invariant has an expression all of whose field
    references name such a field, and each diagnostic it reports is
    justified by one own invariant: a missing expression, or one
    referenced name that is not a field. *)
Theorem ValidateInvariants_reports c s :
  exists out,
    ValidateInvariants c s =
      (list_empty out,
       mkAState (symbolTable_ s) (hasErrors_ s || negb (list_empty out)) (diagnostics s ++ out))
    /\ (out = [] <->
        forall inv, In inv (c_invariants c) ->
          exists e, inv_expression inv = Some e
                    /\ forall x, In x (RefNames e) ->
                                 In x (map f_name (GetAllFields (symbolTable_ s) c)))
    /\ (forall dg, In dg out ->
          exists inv, In inv (c_invariants c)
            /\ ((inv_expression inv = None
                 /\ dg = InvariantMissingExpression (inv_name inv) (c_name c))
                \/ exists e x, inv_expression inv = Some e /\ In x (RefNames e)
                     /\ ~ In x (map f_name (GetAllFields (symbolTable_ s) c))
                     /\ dg = InvariantUndefinedFieldReference (inv_name inv) (c_name c) x)).
Proof.
  set (t := symbolTable_ s).
  exists (flat_map (invariant_reports c (field_names (GetAllFields t c))) (c_invariants c)).
  split; [| split].
  - apply (Emits_state t); [apply ValidateInvariants_emits | reflexivity].
  - rewrite flat_map_nil_iff. split.
    + intros H inv Hinv. specialize (H inv Hinv). unfold invariant_reports in H.
      destruct (inv_expression inv) as [e |]; [| discriminate].
      exists e. split; [reflexivity |]. intros x Hx.
      rewrite flat_map_nil_iff in H. apply CollectFieldReferences_In in Hx.
      specialize (H x Hx). apply set_mem_field_names.
      destruct (set_mem x (field_names (GetAllFields t c))); [reflexivity | discriminate].
    + intros H inv Hinv. destruct (H inv Hinv) as [e [He Hx]].
      unfold invariant_reports. rewrite He. apply flat_map_nil_iff. intros x Hin.
      apply CollectFieldReferences_In in Hin.
      rewrite (proj2 (set_mem_field_names x _) (Hx x Hin)). reflexivity.
  - intros dg Hdg. apply in_flat_map in Hdg. destruct Hdg as [inv [Hinv Hdg]].
    exists inv. split; [exact Hinv |]. unfold invariant_reports in Hdg.
    destruct (inv_expression inv) as [e |].
    + right. apply in_flat_map in Hdg. destruct Hdg as [x [Hx Hdg]].
      exists e, x. destruct (set_mem x (field_names (GetAllFields t c))) eqn:Hm; [destruct Hdg |].
      destruct Hdg as [<- | []]. split; [reflexivity |]. split; [apply CollectFieldReferences_In; exact Hx |].
      split; [| reflexivity]. intros Hin. apply set_mem_field_names in Hin. congruence.
    + left. destruct Hdg as [<- | []]. split; reflexivity.
Qed.

Lemma Emits_and4 t m1 m2 m3 m4 o1 o2 o3 o4 :
  Emits t m1 o1 -> Emits t m2 o2 -> Emits t m3 o3 -> Emits t m4 o4 ->
  Emits t (a <- m1 ;; b <- m2 ;; c <- m3 ;; e <- m4 ;; ret (a && b && c && e))
    (o1 ++ o2 ++ o3 ++ o4).
Proof.
  intros H1 H2 H3 H4 h d. unfold bind. rewrite H1. simpl. rewrite H2. simpl.
  rewrite H3. simpl. rewrite H4. unfold ret. rewrite !list_empty_app, !app_assoc.
  destruct (list_empty o1), (list_empty o2), (list_empty o3), (list_empty o4), h; reflexivity.
Qed.

Lemma Emits_and5 t m1 m2 m3 m4 m5 o1 o2 o3 o4 o5 :
  Emits t m1 o1 -> Emits t m2 o2 -> Emits t m3 o3 -> Emits t m4 o4 -> Emits t m5 o5 ->
  Emits t (a <- m1 ;; b <- m2 ;; c <- m3 ;; e <- m4 ;; g <- m5 ;; ret (a && b && c && e && g))
    (o1 ++ o2 ++ o3 ++ o4 ++ o5).
Proof.
  intros H1 H2 H3 H4 H5 h d. unfold bind. rewrite H1. simpl. rewrite H2. simpl.
  rewrite H3. simpl. rewrite H4. simpl. rewrite H5. unfold ret. rewrite !list_empty_app, !app_assoc.
  destruct (list_empty o1), (list_empty o2), (list_empty o3), (list_empty o4), (list_empty o5), h;
    reflexivity.
Qed.

(** [Acc t P m]: [m] emits some output, all of it satisfying [P]. *)
Definition Acc (t : SymbolTable) (P : Diagnostic -> Prop) (m : M bool) : Prop :=
  exists out, Emits t m out /\ Forall P out.

Lemma Acc_ret t P : Acc t P (ret true).
Proof. exists []. split; [apply Emits_ret | constructor]. Qed.

Lemma Acc_report t (P : Diagnostic -> Prop) dg : P dg -> Acc t P (ReportError dg ;;; ret false).
Proof. intros H. exists [dg]. split; [apply Emits_report | constructor; [exact H | constructor]]. Qed.

Lemma Acc_get t P k : Acc t P (k t) -> Acc t P (bind get_table k).
Proof. intros [o [E F]]. exists o. split; [apply Emits_get; exact E | exact F]. Qed.

Lemma Acc_and t P m1 m2 :
  Acc t P m1 -> Acc t P m2 -> Acc t P (ok <- m1 ;; ok2 <- m2 ;; ret (ok && ok2)).
Proof.
  intros [o1 [E1 F1]] [o2 [E2 F2]]. exists (o1 ++ o2).
  split; [apply Emits_and; assumption | apply Forall_app; split; assumption].
Qed.

Lemma Acc_and4 t P m1 m2 m3 m4 :
  Acc t P m1 -> Acc t P m2 -> Acc t P m3 -> Acc t P m4 ->
  Acc t P (a <- m1 ;; b <- m2 ;; c <- m3 ;; e <- m4 ;; ret (a && b && c && e)).
Proof.
  intros [o1 [E1 F1]] [o2 [E2 F2]] [o3 [E3 F3]] [o4 [E4 F4]]. exists (o1 ++ o2 ++ o3 ++ o4).
  split; [apply Emits_and4; assumption |].
  repeat (apply Forall_app; split); assumption.
Qed.

Lemma Acc_if t P m :
  Acc t P m -> Acc t P (ok <- m ;; if ok then ret true else ret false).
Proof. intros [o [E F]]. exists o. split; [apply Emits_if; exact E | exact F]. Qed.

Lemma Acc_for {A} t P (body : A -> M bool) xs :
  (forall x, In x xs -> Acc t P (body x)) -> Acc t P (for_each_success body xs).
Proof.
  induction xs as [| x rest IH]; intros H; [apply Acc_ret |].
  exact (Acc_and t P _ _ (H x (or_introl eq_refl)) (IH (fun y Hy => H y (or_intror Hy)))).
Qed.

Lemma Acc_weaken t (P Q : Diagnostic -> Prop) m :
  (forall dg, P dg -> Q dg) -> Acc t P m -> Acc t Q m.
Proof.
  intros HPQ [o [E F]]. exists o. split; [exact E |].
  eapply Forall_impl; [exact HPQ | exact F].
Qed.

Ltac acc :=
  repeat match goal with
  | |- Acc _ _ (bind get_table _) => apply Acc_get; cbv beta
  | |- Acc _ _ (bind (ReportError _) (fun _ => ret false)) => apply Acc_report; try reflexivity
  | |- Acc _ _ (ret true) => apply Acc_ret
  | |- Acc _ _ (for_each_success _ _) => apply Acc_for; intros ? ?
  | |- Acc _ _ (if ?b then _ else _) => destruct b
  | |- Acc _ _ (match ?x with _ => _ end) => destruct x
  end.

Lemma ValidateMemberAccess_acc t obj member c ctx :
  Acc t (fun dg => diag_subject dg = Some ctx) (ValidateMemberAccess obj member c ctx).
Proof.
  revert member. induction obj; intros member; simpl; acc.
  apply Acc_if. apply IHobj.
Qed.

Lemma ValidateMemberAccessInExpression_acc t e c ctx :
  Acc t (fun dg => diag_subject dg = Some ctx) (ValidateMemberAccessInExpression e c ctx).
Proof.
  induction e using Expression_nested_ind; simpl; acc.
  - apply Acc_and; assumption.
  - exact IHe.
  - apply ValidateMemberAccess_acc.
  - induction H as [| a rest Ha Hrest IH]; [apply Acc_ret |].
    apply Acc_and; assumption.
  - exact IHe.
Qed.

Lemma ValidateComputedFeatureExpression_acc t f c av :
  Acc t (fun dg => diag_subject dg = Some (f_name f)) (ValidateComputedFeatureExpression f c av).
Proof.
  unfold ValidateComputedFeatureExpression.
  destruct (f_initializer f) as [e |]; [| apply Acc_ret].
  apply Acc_and4.
  - unfold CheckComputedCardinality. acc.
  - unfold CheckComputedReferences. acc.
  - apply ValidateMemberAccessInExpression_acc.
  - unfold CheckComputedType. acc.
Qed.

Lemma ValidateComputedFeatures_acc t c :
  Acc t (fun dg => exists f, In f (c_fields c) /\ IsComputed f = true
                             /\ diag_subject dg = Some (f_name f))
    (ValidateComputedFeatures c).
Proof.
  unfold ValidateComputedFeatures. apply Acc_get. cbv beta. apply Acc_for. intros f Hf.
  destruct (IsComputed f) eqn:Hc; [| apply Acc_ret].
  eapply Acc_weaken; [| apply ValidateComputedFeatureExpression_acc].
  intros dg Hdg. exists f. auto.
Qed.

(** X4: [ValidateComputedFeatures] keeps the table, succeeds iff it
    reports nothing, and each diagnostic it reports is about a computed
    field declared in the class itself: inherited fields and fields
    without an initializer are never checked. *)
Theorem ValidateComputedFeatures_reports c s :
  exists out,
    ValidateComputedFeatures c s =
      (list_empty out,
       mkAState (symbolTable_ s) (hasErrors_ s || negb (list_empty out)) (diagnostics s ++ out))
    /\ forall dg, In dg out ->
         exists f, In f (c_fields c) /\ IsComputed f = true /\ diag_subject dg = Some (f_name f).
Proof.
  destruct (ValidateComputedFeatures_acc (symbolTable_ s) c) as [out [E F]]. exists out. split.
  - apply (Emits_state _ _ _ _ E). reflexivity.
  - intros dg Hdg. rewrite Forall_forall in F. exact (F dg Hdg).
Qed.

(** ** The inheritance walks follow one chain of classes *)

Lemma GetAllFieldsHelper_chain fuel tbl c af vis :
  option_map fst (GetAllFieldsHelper_fuel fuel tbl c af vis)
  = option_map (fun cs => af ++ flat_map c_fields cs) (class_chain_fuel fuel tbl c vis).
Proof.
  revert c af vis. induction fuel as [| f IH]; intros c af vis; [reflexivity |]. simpl.
  destruct (set_mem (c_name c) vis); [simpl; rewrite app_nil_r; reflexivity |].
  assert (K : forall o : option (list Field * StringSet), forall oc,
             option_map fst o = option_map (fun cs => af ++ flat_map c_fields cs) oc ->
             option_map fst (match o with Some (a, v) => Some (a ++ c_fields c, v) | None => None end)
             = option_map (fun cs => af ++ flat_map c_fields cs)
                 (match oc with Some cs => Some (cs ++ [c]) | None => None end)).
  { intros [[a v] |] [cs |]; simpl; try discriminate; [| reflexivity].
    intros E. injection E as ->. rewrite flat_map_app. simpl. rewrite app_nil_r, app_assoc.
    reflexivity. }
  apply K. destruct (HasExplicitBase c); [| simpl; rewrite app_nil_r; reflexivity].
  destruct (LookupType tbl (c_baseType c)) as [[| | b] |];
    try (simpl; rewrite app_nil_r; reflexivity). apply IH.
Qed.

Lemma GetAllInvariantsHelper_chain fuel tbl c ai vis :
  option_map fst (GetAllInvariantsHelper_fuel fuel tbl c ai vis)
  = option_map (fun cs => ai ++ flat_map c_invariants cs) (class_chain_fuel fuel tbl c vis).
Proof.
  revert c ai vis. induction fuel as [| f IH]; intros c ai vis; [reflexivity |]. simpl.
  destruct (set_mem (c_name c) vis); [simpl; rewrite app_nil_r; reflexivity |].
  assert (K : forall o : option (list Invariant * StringSet), forall oc,
             option_map fst o = option_map (fun cs => ai ++ flat_map c_invariants cs) oc ->
             option_map fst (match o with Some (a, v) => Some (a ++ c_invariants c, v) | None => None end)
             = option_map (fun cs => ai ++ flat_map c_invariants cs)
                 (match oc with Some cs => Some (cs ++ [c]) | None => None end)).
  { intros [[a v] |] [cs |]; simpl; try discriminate; [| reflexivity].
    intros E. injection E as ->. rewrite flat_map_app. simpl. rewrite app_nil_r, app_assoc.
    reflexivity. }
  apply K. destruct (HasExplicitBase c); [| simpl; rewrite app_nil_r; reflexivity].
  destruct (LookupType tbl (c_baseType c)) as [[| | b] |];
    try (simpl; rewrite app_nil_r; reflexivity). apply IH.
Qed.

Lemma linked_snoc tbl l y :
  linked tbl l ->
  (forall l' x, l = l' ++ [x] ->
     HasExplicitBase y = true /\ LookupType tbl (c_baseType y) = Some (SymClass x)) ->
  linked tbl (l ++ [y]).
Proof.
  induction l as [| x rest IH]; intros Hl Hlast; [exact I |].
  destruct rest as [| z rest'].
  - simpl. destruct (Hlast [] x eq_refl) as [H1 H2]. auto.
  - simpl in Hl |- *. destruct Hl as [H1 [H2 H3]]. split; [exact H1 | split; [exact H2 |]].
    apply IH; [exact H3 |]. intros l' w E. apply (Hlast (x :: l') w). rewrite E. reflexivity.
Qed.

Lemma class_chain_props fuel tbl c vis l :
  class_chain_fuel fuel tbl c vis = Some l ->
  NoDup (map c_name l)
  /\ (forall x, In x l -> set_mem (c_name x) vis = false)
  /\ linked tbl l
  /\ (l = [] \/ exists l', l = l' ++ [c]).
Proof.
  revert c vis l. induction fuel as [| f IH]; intros c vis l E; [discriminate |]. simpl in E.
  destruct (set_mem (c_name c) vis) eqn:Hm.
  { injection E as <-. split; [constructor |]. split; [intros x [] |]. split; [exact I | left; reflexivity]. }
  assert (Single : forall cs, cs = [] -> Some (cs ++ [c]) = Some l ->
            NoDup (map c_name l) /\ (forall x, In x l -> set_mem (c_name x) vis = false)
            /\ linked tbl l /\ (l = [] \/ exists l', l = l' ++ [c])).
  { intros cs -> F. injection F as <-. simpl. split; [constructor; [intros [] | constructor] |].
    split; [intros x [<- | []]; exact Hm |]. split; [exact I | right; exists []; reflexivity]. }
  destruct (HasExplicitBase c) eqn:Hb; [| exact (Single [] eq_refl E)].
  destruct (LookupType tbl (c_baseType c)) as [[e | p | b] |] eqn:Hl;
    try exact (Single [] eq_refl E).
  destruct (class_chain_fuel f tbl b (set_insert (c_name c) vis)) as [cs |] eqn:Ec; [| discriminate].
  injection E as <-.
  destruct (IH _ _ _ Ec) as [N [V [L T]]].
  assert (Cin : set_mem (c_name c) (set_insert (c_name c) vis) = true).
  { rewrite set_mem_insert, String.eqb_refl. reflexivity. }
  split; [| split; [| split]].
  - rewrite map_app. apply NoDup_app_intro; [exact N | constructor; [intros [] | constructor] |].
    intros x Hx [<- | []]. apply in_map_iff in Hx. destruct Hx as [y [Ey Hy]].
    specialize (V y Hy). rewrite Ey, Cin in V. discriminate.
  - intros x Hx. apply in_app_iff in Hx. destruct Hx as [Hx | [<- | []]]; [| exact Hm].
    specialize (V x Hx). rewrite set_mem_insert, orb_false_iff in V. tauto.
  - apply linked_snoc; [exact L |]. intros l' x Ex.
    destruct T as [-> | [l'' ->]]; [destruct l'; discriminate |].
    apply app_inj_tail in Ex. destruct Ex as [_ ->]. auto.
  - right. exists cs. reflexivity.
Qed.

Lemma class_chain_nonempty fuel tbl c vis l :
  class_chain_fuel fuel tbl c vis = Some l -> set_mem (c_name c) vis = false -> l <> [].
Proof.
  intros E Hm. destruct fuel as [| f]; [discriminate |]. simpl in E. rewrite Hm in E.
  destruct (HasExplicitBase c);
    [destruct (LookupType tbl (c_baseType c)) as [[| | b] |];
       [| | destruct (class_chain_fuel f tbl b (set_insert (c_name c) vis)) |] |];
    try discriminate; injection E as <-; intros Hn;
    try (apply app_eq_nil in Hn; destruct Hn as [_ Hn]); discriminate.
Qed.

(** X13: [GetAllFields] and [GetAllInvariants] walk the same chain of
    classes [cs ++ [c]], base first: each class of the chain is the
    symbol-table base of the next one, and no class name occurs twice
    in it (even on a cyclic hierarchy). The result is the concatenation
    of the chain's own fields (respectively invariants), so the class's
    own members come last and each class contributes once. *)
Theorem GetAllFields_GetAllInvariants_chain tbl c :
  exists cs,
    GetAllFields tbl c = flat_map c_fields (cs ++ [c])
    /\ GetAllInvariants tbl c = flat_map c_invariants (cs ++ [c])
    /\ NoDup (map c_name (cs ++ [c]))
    /\ linked tbl (cs ++ [c]).
Proof.
  destruct (GetAllFieldsHelper_fuel_enough (walk_fuel tbl) tbl c [] []) as [[af v] E].
  { pose proof (unvisited_classes_le tbl (set_insert (c_name c) [])). unfold walk_fuel. lia. }
  pose proof (GetAllFieldsHelper_chain (walk_fuel tbl) tbl c [] []) as Ch.
  rewrite E in Ch. destruct (class_chain_fuel (walk_fuel tbl) tbl c []) as [l |] eqn:El;
    [| discriminate].
  destruct (class_chain_props _ _ _ _ _ El) as [N [_ [L T]]].
  destruct T as [-> | [cs ->]].
  - exfalso. exact (class_chain_nonempty _ _ _ _ _ El eq_refl eq_refl).
  - exists cs. split; [| split; [| split; assumption]].
    + unfold GetAllFields. rewrite E. simpl in Ch. injection Ch as ->. reflexivity.
    + destruct (GetAllInvariantsHelper_fuel_enough (walk_fuel tbl) tbl c [] []) as [[ai w] Ei].
      { pose proof (unvisited_classes_le tbl (set_insert (c_name c) [])). unfold walk_fuel. lia. }
      pose proof (GetAllInvariantsHelper_chain (walk_fuel tbl) tbl c [] []) as Chi.
      rewrite Ei, El in Chi. unfold GetAllInvariants. rewrite Ei. simpl in Chi.
      injection Chi as ->. reflexivity.
Qed.

(** X14: the [CardinalityModifier] predicates: an unbounded modifier is
    an array; a bounded one is an array iff its maximum exceeds 1; a
    modifier is never both optional and mandatory, and with a minimum
    of at least 0 it is exactly one of them. *)
Theorem CardinalityModifier_predicates mn mx :
  (IsUnbounded mn mx = true -> IsArray mn mx = true)
  /\ (IsUnbounded mn mx = false -> IsArray mn mx = (mx >? 1)%Z)
  /\ (IsOptional mn mx && IsMandatory mn mx = false)
  /\ ((0 <= mn)%Z -> IsOptional mn mx || IsMandatory mn mx = true).
Proof.
  unfold IsUnbounded, IsArray, IsOptional, IsMandatory.
  split; [intros -> ; reflexivity |]. split; [intros -> ; reflexivity |].
  split.
  - destruct (Z.eqb_spec mn 0); destruct (Z.gtb_spec mn 0); simpl; try reflexivity; lia.
  - intros H. destruct (Z.eqb_spec mn 0); destruct (Z.gtb_spec mn 0); simpl; try reflexivity; lia.
Qed.


(** ** The symbol table as a map *)

Lemma LookupType_app_gen t1 t2 x :
  LookupType (t1 ++ t2) x =
  match LookupType t1 x with Some s => Some s | None => LookupType t2 x end.
Proof.
  induction t1 as [| [k v] rest IH]; simpl; [reflexivity |].
  destruct (String.eqb k x); [reflexivity | exact IH].
Qed.

Lemma TypeExists_existsb t n : TypeExists t n = existsb (String.eqb n) (map fst t).
Proof.
  unfold TypeExists. induction t as [| [k v] rest IH]; simpl; [reflexivity |].
  rewrite String.eqb_sym. destruct (String.eqb n k); [reflexivity | exact IH].
Qed.

Lemma LookupType_map_insert t k v x :
  LookupType (map_insert t k v) x =
  match LookupType t x with Some s => Some s | None => if String.eqb k x then Some v else None end.
Proof.
  unfold map_insert. destruct (TypeExists t k) eqn:E.
  - destruct (LookupType t x) eqn:L; [reflexivity |].
    destruct (String.eqb_spec k x) as [-> | _]; [| reflexivity].
    unfold TypeExists in E. rewrite L in E. discriminate.
  - rewrite LookupType_app_gen. destruct (LookupType t x); [reflexivity |]. simpl.
    destruct (String.eqb k x); reflexivity.
Qed.

Lemma fold_map_insert_lookup names t x :
  LookupType (fold_left (fun t n => map_insert t n (SymPrimitive n)) names t) x =
  match LookupType t x with
  | Some s => Some s
  | None => if existsb (String.eqb x) names then Some (SymPrimitive x) else None
  end.
Proof.
  revert t. induction names as [| n rest IH]; intros t; simpl.
  - destruct (LookupType t x); reflexivity.
  - rewrite IH, LookupType_map_insert. destruct (LookupType t x); [reflexivity |].
    rewrite (String.eqb_sym x n). destruct (String.eqb_spec n x) as [-> | _]; reflexivity.
Qed.

Lemma fold_map_insert_present names t :
  (forall n, In n names -> TypeExists t n = true) ->
  fold_left (fun t n => map_insert t n (SymPrimitive n)) names t = t.
Proof.
  revert t. induction names as [| n rest IH]; intros t H; simpl; [reflexivity |].
  unfold map_insert at 2. rewrite (H n (or_introl eq_refl)).
  apply IH. intros m Hm. exact (H m (or_intror Hm)).
Qed.

Lemma RegisterPrimitiveTypes_lookup t x :
  LookupType (RegisterPrimitiveTypes t) x =
  match LookupType t x with
  | Some s => Some s
  | None => if existsb (String.eqb x) PrimitiveNames then Some (SymPrimitive x) else None
  end.
Proof. apply fold_map_insert_lookup. Qed.

Lemma RegisterPrimitiveTypes_present t :
  (forall n, In n PrimitiveNames -> TypeExists t n = true) -> RegisterPrimitiveTypes t = t.
Proof. apply fold_map_insert_present. Qed.

Lemma RegisterPrimitiveTypes_prefix t : exists ext, RegisterPrimitiveTypes t = t ++ ext.
Proof.
  unfold RegisterPrimitiveTypes. generalize PrimitiveNames. intros names.
  revert t. induction names as [| n rest IH]; intros t; simpl; [exists []; rewrite app_nil_r; reflexivity |].
  destruct (IH (map_insert t n (SymPrimitive n))) as [ext E]. rewrite E.
  unfold map_insert. destruct (TypeExists t n); [exists ext; reflexivity |].
  exists ((n, SymPrimitive n) :: ext). rewrite <- app_assoc. reflexivity.
Qed.

(** X7: [RegisterPrimitiveTypes] only adds: a name already in the table
    keeps its symbol ([insert] does not overwrite), every other
    primitive type name is bound to its primitive symbol, and no other
    name changes. Running it a second time changes nothing. *)
Theorem RegisterPrimitiveTypes_inserts t :
  (forall x, LookupType (RegisterPrimitiveTypes t) x =
     match LookupType t x with
     | Some s => Some s
     | None => if existsb (String.eqb x) PrimitiveNames then Some (SymPrimitive x) else None
     end)
  /\ RegisterPrimitiveTypes (RegisterPrimitiveTypes t) = RegisterPrimitiveTypes t.
Proof.
  split; [apply RegisterPrimitiveTypes_lookup |].
  apply RegisterPrimitiveTypes_present. intros n Hn. unfold TypeExists.
  rewrite RegisterPrimitiveTypes_lookup.
  destruct (LookupType t n); [reflexivity |].
  assert (E : existsb (String.eqb n) PrimitiveNames = true).
  { apply existsb_exists. exists n. split; [exact Hn | apply String.eqb_refl]. }
  rewrite E. reflexivity.
Qed.

Lemma existsb_eqb_In n l : existsb (String.eqb n) l = true <-> In n l.
Proof.
  rewrite existsb_exists. split.
  - intros [y [Hy E]]. apply String.eqb_eq in E. subst. exact Hy.
  - intros H. exists n. split; [exact H | apply String.eqb_refl].
Qed.

Lemma existsb_eqb_ext n l1 l2 :
  (forall x, In x l1 <-> In x l2) -> existsb (String.eqb n) l1 = existsb (String.eqb n) l2.
Proof.
  intros H. destruct (existsb (String.eqb n) l2) eqn:E2.
  - apply existsb_eqb_In. apply H. apply existsb_eqb_In. exact E2.
  - destruct (existsb (String.eqb n) l1) eqn:E1; [| reflexivity].
    apply existsb_eqb_In, H, existsb_eqb_In in E1. congruence.
Qed.

Lemma BuildSymbolTable_gen ast prev s :
  (forall x, In x prev <-> In x (map fst (symbolTable_ s))) ->
  exists t',
    BuildSymbolTable ast s =
      (list_empty (dup_decls prev ast),
       mkAState t' (hasErrors_ s || negb (list_empty (dup_decls prev ast)))
         (diagnostics s ++ map (fun d => DuplicateTypeName (decl_name d)) (dup_decls prev ast)))
    /\ forall x, LookupType t' x =
         match LookupType (symbolTable_ s) x with
         | Some sy => Some sy
         | None => option_map decl_symbol (find (fun d => String.eqb (decl_name d) x) ast)
         end.
Proof.
  revert prev s. induction ast as [| d rest IH]; intros prev [t h dg] Hp; simpl in Hp.
  - exists t. split.
    + unfold BuildSymbolTable. simpl. unfold ret. rewrite orb_false_r, app_nil_r. reflexivity.
    + intros x. simpl. destruct (LookupType t x); reflexivity.
  - unfold BuildSymbolTable. cbn [for_each_success]. unfold bind at 1.
    rewrite RegisterDeclaration_eq. simpl symbolTable_.
    rewrite TypeExists_existsb, <- (existsb_eqb_ext _ _ _ Hp).
    destruct (existsb (String.eqb (decl_name d)) prev) eqn:Ex.
    + assert (Hin : In (decl_name d) (map fst t)) by (apply Hp, existsb_eqb_In; exact Ex).
      destruct (IH (prev ++ [decl_name d]) (mkAState t true (dg ++ [DuplicateTypeName (decl_name d)])))
        as [t' [E L]].
      { simpl. intros x. rewrite in_app_iff. simpl. rewrite Hp. intuition congruence. }
      exists t'. split.
      * unfold bind. unfold BuildSymbolTable in E.
        match goal with |- context [for_each_success RegisterDeclaration rest ?st] =>
          change st with (mkAState t true (dg ++ [DuplicateTypeName (decl_name d)])) end.
        rewrite E. unfold ret. simpl. rewrite Ex. simpl. rewrite orb_true_r, <- app_assoc. reflexivity.
      * intros x. rewrite L. simpl. destruct (String.eqb_spec (decl_name d) x) as [<- | _].
        -- destruct (LookupType t (decl_name d)) eqn:Lk; [reflexivity |].
           apply LookupType_None_notin in Lk. contradiction.
        -- reflexivity.
    + destruct (IH (prev ++ [decl_name d])
                  (mkAState (map_insert t (decl_name d) (decl_symbol d)) h dg)) as [t' [E L]].
      { simpl. intros x. unfold map_insert.
        rewrite TypeExists_existsb, <- (existsb_eqb_ext _ _ _ Hp), Ex.
        rewrite map_app, !in_app_iff, Hp. reflexivity. }
      exists t'. split.
      * unfold bind. unfold BuildSymbolTable in E.
        match goal with |- context [for_each_success RegisterDeclaration rest ?st] =>
          change st with (mkAState (map_insert t (decl_name d) (decl_symbol d)) h dg) end.
        rewrite E. unfold ret. simpl. rewrite Ex. reflexivity.
      * intros x. rewrite L. simpl. rewrite LookupType_map_insert.
        destruct (LookupType t x); [reflexivity |].
        destruct (String.eqb (decl_name d) x); reflexivity.
Qed.

(** X5: [BuildSymbolTable] reports [DuplicateTypeName], in declaration
    order, for exactly the declarations whose name is already in the
    table or is the name of an earlier declaration, and fails iff there
    is one. Every other name of the table keeps its symbol, and a new
    name is bound to its first declaration. *)
Theorem BuildSymbolTable_first_declaration_wins ast s :
  exists t',
    BuildSymbolTable ast s =
      (list_empty (dup_decls (map fst (symbolTable_ s)) ast),
       mkAState t' (hasErrors_ s || negb (list_empty (dup_decls (map fst (symbolTable_ s)) ast)))
         (diagnostics s ++ map (fun d => DuplicateTypeName (decl_name d))
                                 (dup_decls (map fst (symbolTable_ s)) ast)))
    /\ forall x, LookupType t' x =
         match LookupType (symbolTable_ s) x with
         | Some sy => Some sy
         | None => option_map decl_symbol (find (fun d => String.eqb (decl_name d) x) ast)
         end.
Proof. apply BuildSymbolTable_gen. tauto. Qed.

(** ** Output of the whole reference validation *)

(** What [m] appends when run on a state with table [t]. *)
Definition emitted (t : SymbolTable) (m : M bool) : list Diagnostic :=
  diagnostics (snd (m (mkAState t false []))).

Lemma Emits_emitted t m o : Emits t m o -> emitted t m = o.
Proof. intros H. unfold emitted. rewrite (H false []). reflexivity. Qed.

Lemma Acc_emits t P m : Acc t P m -> Emits t m (emitted t m) /\ Forall P (emitted t m).
Proof. intros [o [E F]]. rewrite (Emits_emitted _ _ _ E). auto. Qed.

Lemma Acc_and5 t P m1 m2 m3 m4 m5 :
  Acc t P m1 -> Acc t P m2 -> Acc t P m3 -> Acc t P m4 -> Acc t P m5 ->
  Acc t P (a <- m1 ;; b <- m2 ;; c <- m3 ;; e <- m4 ;; g <- m5 ;; ret (a && b && c && e && g)).
Proof.
  intros [o1 [E1 F1]] [o2 [E2 F2]] [o3 [E3 F3]] [o4 [E4 F4]] [o5 [E5 F5]].
  exists (o1 ++ o2 ++ o3 ++ o4 ++ o5).
  split; [apply Emits_and5; assumption |].
  repeat (apply Forall_app; split); assumption.
Qed.

Lemma Acc_True t m o : Emits t m o -> Acc t (fun _ => True) m.
Proof. intros E. exists o. split; [exact E | apply Forall_forall; auto]. Qed.

Lemma ValidateFieldUniqueness_acc t c : Acc t (fun _ => True) (ValidateFieldUniqueness c).
Proof.
  unfold ValidateFieldUniqueness. apply Acc_get. cbv beta.
  destruct (FieldUniquenessLoop_emits t c (GetAllFields t c) []) as [dn [E _]].
  exact (Acc_True _ _ _ E).
Qed.

Lemma ValidateClassDeclaration_parts t c :
  exists rest,
    Emits t (ValidateClassDeclaration c)
      (emitted t (ValidateBaseType c)
       ++ emitted t (for_each_success (ValidateFieldType c) (c_fields c)) ++ rest).
Proof.
  assert (B : Acc t (fun _ => True) (ValidateBaseType c)) by (unfold ValidateBaseType; acc).
  assert (F : Acc t (fun _ => True) (for_each_success (ValidateFieldType c) (c_fields c)))
    by (acc; unfold ValidateFieldType; acc).
  destruct (Acc_emits _ _ _ B) as [EB _]. destruct (Acc_emits _ _ _ F) as [EF _].
  destruct (ValidateFieldUniqueness_acc t c) as [o3 [E3 _]].
  destruct (ValidateComputedFeatures_acc t c) as [o5 [E5 _]].
  exists (o3 ++ flat_map (invariant_reports c (field_names (GetAllFields t c))) (c_invariants c)
             ++ o5).
  rewrite !app_assoc. rewrite <- !(app_assoc _ o3).
  unfold ValidateClassDeclaration.
  refine (Emits_out _ _ _ _ _ (Emits_and5 _ _ _ _ _ _ _ _ _ _ _ EB EF E3
                                 (ValidateInvariants_emits t c) E5)).
  rewrite !app_assoc. reflexivity.
Qed.

Lemma ValidateClassDeclaration_acc t c : Acc t (fun _ => True) (ValidateClassDeclaration c).
Proof.
  destruct (ValidateClassDeclaration_parts t c) as [rest E]. exact (Acc_True _ _ _ E).
Qed.

Lemma CheckInheritanceCycle_acc t c : Acc t (fun _ => True) (CheckInheritanceCycle c).
Proof. unfold CheckInheritanceCycle. acc. Qed.

Lemma first_pass_emits t ast :
  Emits t (for_each_success (on_class ValidateClassDeclaration) ast)
    (flat_map (fun d => emitted t (on_class ValidateClassDeclaration d)) ast).
Proof.
  apply Emits_for. intros [e | c] _; unfold on_class.
  - rewrite (Emits_emitted _ _ _ (Emits_ret t)). apply Emits_ret.
  - apply (Acc_emits _ _ _ (ValidateClassDeclaration_acc t c)).
Qed.

Lemma second_pass_acc t ast :
  Acc t (fun _ => True) (for_each_success (on_class CheckInheritanceCycle) ast).
Proof.
  apply Acc_for. intros [e | c] _; unfold on_class; [apply Acc_ret | apply CheckInheritanceCycle_acc].
Qed.

Lemma ValidateTypeReferences_acc t ast : Acc t (fun _ => True) (ValidateTypeReferences ast).
Proof.
  unfold ValidateTypeReferences. apply Acc_and; [| apply second_pass_acc].
  exact (Acc_True _ _ _ (first_pass_emits t ast)).
Qed.

(** ** What one call of [Analyze] does *)

Lemma Analyze_outcome ast s :
  exists t',
    (forall x, LookupType t' x =
       match LookupType (RegisterPrimitiveTypes (symbolTable_ s)) x with
       | Some sy => Some sy
       | None => option_map decl_symbol (find (fun d => String.eqb (decl_name d) x) ast)
       end)
    /\ Analyze ast s =
       if list_empty (dup_decls (map fst (RegisterPrimitiveTypes (symbolTable_ s))) ast) then
         (list_empty (emitted t' (ValidateTypeReferences ast)) && negb (hasErrors_ s),
          mkAState t' (hasErrors_ s || negb (list_empty (emitted t' (ValidateTypeReferences ast))))
            (diagnostics s ++ emitted t' (ValidateTypeReferences ast)))
       else
         (false, mkAState t' true
                   (diagnostics s ++ map (fun d => DuplicateTypeName (decl_name d))
                      (dup_decls (map fst (RegisterPrimitiveTypes (symbolTable_ s))) ast))).
Proof.
  destruct s as [t h d]. simpl symbolTable_.
  destruct (BuildSymbolTable_gen ast (map fst (RegisterPrimitiveTypes t))
              (mkAState (RegisterPrimitiveTypes t) h d)) as [t' [E L]]; [simpl; tauto |].
  exists t'. split; [exact L |].
  rewrite Analyze_eq. simpl. rewrite E.
  destruct (list_empty (dup_decls (map fst (RegisterPrimitiveTypes t)) ast)) eqn:Ed.
  - apply list_empty_true in Ed. rewrite Ed. simpl. rewrite orb_false_r, app_nil_r.
    destruct (Acc_emits _ _ _ (ValidateTypeReferences_acc t' ast)) as [EV _].
    rewrite (EV h d). destruct (list_empty (emitted t' (ValidateTypeReferences ast))); simpl.
    + rewrite orb_false_r. reflexivity.
    + reflexivity.
  - simpl. rewrite orb_true_r. reflexivity.
Qed.

Lemma dup_decls_all prev ast :
  (forall d, In d ast -> In (decl_name d) prev) -> dup_decls prev ast = ast.
Proof.
  revert prev. induction ast as [| d rest IH]; intros prev H; [reflexivity |]. simpl.
  assert (E : existsb (String.eqb (decl_name d)) prev = true)
    by (apply existsb_eqb_In, H; left; reflexivity).
  rewrite E. simpl. f_equal. apply IH. intros x Hx. apply in_app_iff. left. apply H. right. exact Hx.
Qed.

Lemma find_decl_name ast d :
  In d ast -> exists d', find (fun d0 => String.eqb (decl_name d0) (decl_name d)) ast = Some d'.
Proof.
  induction ast as [| x rest IH]; intros H; [destruct H |]. simpl.
  destruct (String.eqb (decl_name x) (decl_name d)) eqn:E; [eauto |].
  destruct H as [-> | H]; [rewrite String.eqb_refl in E; discriminate | exact (IH H)].
Qed.

Lemma LookupType_Some_In t n s : LookupType t n = Some s -> In n (map fst t).
Proof. intros H. apply LookupType_In in H. apply in_map_iff. exists (n, s). auto. Qed.

(** X6: the analyzer never clears its symbol table, so calling
    [Analyze] a second time on the same analyzer with the same
    non-empty declaration list fails at once: every declaration is
    reported as [DuplicateTypeName], in order, and the table keeps
    every binding. *)
Theorem Analyze_second_call_reports_every_declaration ast :
  ast <> [] ->
  exists t'',
    Analyze ast (snd (RunAnalyze ast)) =
      (false, mkAState t'' true
                (diagnostics (snd (RunAnalyze ast))
                 ++ map (fun d => DuplicateTypeName (decl_name d)) ast))
    /\ forall x, LookupType t'' x = LookupType (symbolTable_ (snd (RunAnalyze ast))) x.
Proof.
  intros Hne. unfold RunAnalyze.
  destruct (Analyze_outcome ast initial_state) as [t1 [L1 E1]].
  assert (T1 : symbolTable_ (snd (Analyze ast initial_state)) = t1).
  { rewrite E1. destruct (list_empty _); reflexivity. }
  remember (snd (Analyze ast initial_state)) as st eqn:Est. clear Est E1.
  assert (Names : forall n, In n PrimitiveNames \/ (exists d, In d ast /\ decl_name d = n) ->
                            exists sy, LookupType t1 n = Some sy).
  { intros n Hn. rewrite L1. change (symbolTable_ initial_state) with ([] : SymbolTable).
    rewrite RegisterPrimitiveTypes_lookup. cbn [LookupType].
    destruct Hn as [Hp | [d0 [Hd <-]]].
    - apply existsb_eqb_In in Hp. rewrite Hp. eauto.
    - destruct (find_decl_name ast d0 Hd) as [d' Ef].
      destruct (existsb (String.eqb (decl_name d0)) PrimitiveNames); [eauto |].
      rewrite Ef. simpl. eauto. }
  assert (RP : RegisterPrimitiveTypes t1 = t1).
  { apply RegisterPrimitiveTypes_present. intros n Hn. unfold TypeExists.
    destruct (Names n (or_introl Hn)) as [sy ->]. reflexivity. }
  destruct (Analyze_outcome ast st) as [t2 [L2 E2]].
  rewrite T1, RP in L2, E2.
  rewrite dup_decls_all in E2.
  2: { intros d Hd. destruct (Names (decl_name d) (or_intror (ex_intro _ d (conj Hd eq_refl))))
         as [sy Hs]. exact (LookupType_Some_In _ _ _ Hs). }
  destruct ast as [| d0 rest]; [contradiction |].
  exists t2. split; [exact E2 |].
  intros x. rewrite L2, T1. destruct (LookupType t1 x) eqn:Lx; [reflexivity |].
  destruct (find (fun d => String.eqb (decl_name d) x) (d0 :: rest)) as [d |] eqn:Ef; [| reflexivity].
  apply find_some in Ef. destruct Ef as [Hd Ex]. apply String.eqb_eq in Ex. subst x.
  destruct (Names (decl_name d) (or_intror (ex_intro _ d (conj Hd eq_refl)))) as [sy Hs].
  congruence.
Qed.

Lemma Analyze_second_call_reports_every_declaration_witness :
  [EnumDecl DupEnum; ClassDecl CycleA] <> []
  /\ exists t'',
    Analyze [EnumDecl DupEnum; ClassDecl CycleA] (snd (RunAnalyze [EnumDecl DupEnum; ClassDecl CycleA])) =
      (false, mkAState t'' true
                (diagnostics (snd (RunAnalyze [EnumDecl DupEnum; ClassDecl CycleA]))
                 ++ map (fun d => DuplicateTypeName (decl_name d)) [EnumDecl DupEnum; ClassDecl CycleA]))
    /\ forall x, LookupType t'' x =
                 LookupType (symbolTable_ (snd (RunAnalyze [EnumDecl DupEnum; ClassDecl CycleA]))) x.
Proof.
  assert (H : [EnumDecl DupEnum; ClassDecl CycleA] <> []) by discriminate.
  exact (conj H (Analyze_second_call_reports_every_declaration _ H)).
Defined.

(** ** Per-class reports seen through a whole run *)

Lemma LookupType_NoDup_In t k v : NoDup (map fst t) -> In (k, v) t -> LookupType t k = Some v.
Proof.
  induction t as [| [k' v'] rest IH]; intros N H; [destruct H |]. simpl.
  inversion N as [| ? ? Hk Hr]; subst.
  destruct H as [E | H].
  - injection E as -> ->. rewrite String.eqb_refl. reflexivity.
  - destruct (String.eqb_spec k' k) as [-> | _]; [| exact (IH Hr H)].
    exfalso. apply Hk. apply in_map_iff. exists (k, v). auto.
Qed.

Lemma decl_table_keys ast :
  map fst (RegisterPrimitiveTypes [] ++ map (fun d => (decl_name d, decl_symbol d)) ast)
  = PrimitiveNames ++ map decl_name ast.
Proof. rewrite map_app, RegisterPrimitiveTypes_keys, map_map. reflexivity. Qed.

(** Under distinct names, anything the base-type check or the field-type
    loop of a declared class reports on the final table ends up in the
    diagnostics of the run, which fails. *)
Lemma RunAnalyze_class_report ast c dg :
  NoDup (PrimitiveNames ++ map decl_name ast) ->
  In (ClassDecl c) ast ->
  In dg (emitted (RegisterPrimitiveTypes [] ++ map (fun d => (decl_name d, decl_symbol d)) ast)
                 (ValidateBaseType c)
         ++ emitted (RegisterPrimitiveTypes [] ++ map (fun d => (decl_name d, decl_symbol d)) ast)
                 (for_each_success (ValidateFieldType c) (c_fields c))) ->
  fst (RunAnalyze ast) = false /\ In dg (diagnostics (snd (RunAnalyze ast))).
Proof.
  intros N Hc Hdg.
  set (T := RegisterPrimitiveTypes [] ++ map (fun d => (decl_name d, decl_symbol d)) ast) in Hdg.
  assert (EV : Emits T (ValidateTypeReferences ast)
                 (flat_map (fun d => emitted T (on_class ValidateClassDeclaration d)) ast
                  ++ emitted T (for_each_success (on_class CheckInheritanceCycle) ast))).
  { unfold ValidateTypeReferences. apply Emits_and; [apply first_pass_emits |].
    exact (proj1 (Acc_emits _ _ _ (second_pass_acc T ast))). }
  assert (Hin : In dg (flat_map (fun d => emitted T (on_class ValidateClassDeclaration d)) ast
                       ++ emitted T (for_each_success (on_class CheckInheritanceCycle) ast))).
  { apply in_app_iff. left. apply in_flat_map. exists (ClassDecl c). split; [exact Hc |].
    unfold on_class. destruct (ValidateClassDeclaration_parts T c) as [rest E].
    rewrite (Emits_emitted _ _ _ E). rewrite app_assoc. apply in_app_iff. left. exact Hdg. }
  unfold RunAnalyze, initial_state. rewrite Analyze_eq. cbn zeta.
  cbn [symbolTable_ hasErrors_ diagnostics].
  rewrite BuildSymbolTable_distinct.
  2: { cbn [symbolTable_]. rewrite RegisterPrimitiveTypes_keys. exact N. }
  cbn [symbolTable_ hasErrors_ diagnostics negb]. fold T.
  rewrite (EV false []).
  destruct (list_empty (flat_map (fun d => emitted T (on_class ValidateClassDeclaration d)) ast
                        ++ emitted T (for_each_success (on_class CheckInheritanceCycle) ast))) eqn:Em.
  - apply list_empty_true in Em. rewrite Em in Hin. destruct Hin.
  - simpl. split; [reflexivity | exact Hin].
Qed.

(** X8: when the declared names are distinct and not primitive, a
    class with an explicit base that names no type gets
    [UndefinedBaseType], and one whose base names a primitive type or
    an enum gets [InvalidBaseTypeKind]; in both cases [Analyze] fails. *)
Theorem Analyze_reports_bad_base ast c :
  NoDup (PrimitiveNames ++ map decl_name ast) ->
  In (ClassDecl c) ast ->
  HasExplicitBase c = true ->
  (~ In (c_baseType c) (PrimitiveNames ++ map decl_name ast) ->
     fst (RunAnalyze ast) = false
     /\ In (UndefinedBaseType (c_name c) (c_baseType c)) (diagnostics (snd (RunAnalyze ast))))
  /\ ((In (c_baseType c) PrimitiveNames
       \/ exists e, In (EnumDecl e) ast /\ e_name e = c_baseType c) ->
     fst (RunAnalyze ast) = false
     /\ In (InvalidBaseTypeKind (c_name c) (c_baseType c)) (diagnostics (snd (RunAnalyze ast)))).
Proof.
  intros N Hc Hb.
  set (T := RegisterPrimitiveTypes [] ++ map (fun d => (decl_name d, decl_symbol d)) ast).
  assert (NT : NoDup (map fst T)) by (unfold T; rewrite decl_table_keys; exact N).
  split.
  - intros Hn. apply (RunAnalyze_class_report ast c _ N Hc). apply in_app_iff. left. fold T.
    assert (E : Emits T (ValidateBaseType c) [UndefinedBaseType (c_name c) (c_baseType c)]).
    { unfold ValidateBaseType. rewrite Hb. apply Emits_get.
      rewrite LookupType_notin; [apply Emits_report |]. unfold T. rewrite decl_table_keys. exact Hn. }
    rewrite (Emits_emitted _ _ _ E). left. reflexivity.
  - intros Hk. apply (RunAnalyze_class_report ast c _ N Hc). apply in_app_iff. left. fold T.
    assert (L : LookupType T (c_baseType c) = Some (SymPrimitive (c_baseType c))
                \/ exists e, LookupType T (c_baseType c) = Some (SymEnum e)).
    { destruct Hk as [Hp | [e [He En]]].
      - left. unfold T. rewrite LookupType_app_gen, RegisterPrimitiveTypes_lookup.
        cbn [LookupType]. apply existsb_eqb_In in Hp. rewrite Hp. reflexivity.
      - right. exists e. apply LookupType_NoDup_In; [exact NT |]. unfold T.
        apply in_app_iff. right. apply in_map_iff. exists (EnumDecl e). rewrite <- En. auto. }
    assert (E : Emits T (ValidateBaseType c) [InvalidBaseTypeKind (c_name c) (c_baseType c)]).
    { unfold ValidateBaseType. rewrite Hb. apply Emits_get.
      destruct L as [-> | [e ->]]; apply Emits_report. }
    rewrite (Emits_emitted _ _ _ E). left. reflexivity.
Qed.

Lemma Analyze_reports_bad_base_witness :
  NoDup (PrimitiveNames ++ map decl_name [ClassDecl (mkClass "A" "Order" [] []); EnumDecl DupEnum])
  /\ In (ClassDecl (mkClass "A" "Order" [] [])) [ClassDecl (mkClass "A" "Order" [] []); EnumDecl DupEnum]
  /\ HasExplicitBase (mkClass "A" "Order" [] []) = true
  /\ ((~ In (c_baseType (mkClass "A" "Order" [] []))
          (PrimitiveNames ++ map decl_name [ClassDecl (mkClass "A" "Order" [] []); EnumDecl DupEnum]) ->
       fst (RunAnalyze [ClassDecl (mkClass "A" "Order" [] []); EnumDecl DupEnum]) = false
       /\ In (UndefinedBaseType (c_name (mkClass "A" "Order" [] [])) (c_baseType (mkClass "A" "Order" [] [])))
            (diagnostics (snd (RunAnalyze [ClassDecl (mkClass "A" "Order" [] []); EnumDecl DupEnum]))))
      /\ ((In (c_baseType (mkClass "A" "Order" [] [])) PrimitiveNames
           \/ exists e, In (EnumDecl e) [ClassDecl (mkClass "A" "Order" [] []); EnumDecl DupEnum]
                        /\ e_name e = c_baseType (mkClass "A" "Order" [] [])) ->
          fst (RunAnalyze [ClassDecl (mkClass "A" "Order" [] []); EnumDecl DupEnum]) = false
          /\ In (InvalidBaseTypeKind (c_name (mkClass "A" "Order" [] [])) (c_baseType (mkClass "A" "Order" [] [])))
               (diagnostics (snd (RunAnalyze [ClassDecl (mkClass "A" "Order" [] []); EnumDecl DupEnum]))))).
Proof.
  assert (N : NoDup (PrimitiveNames ++ map decl_name [ClassDecl (mkClass "A" "Order" [] []); EnumDecl DupEnum])).
  { unfold PrimitiveNames, DupEnum. simpl.
    repeat constructor; simpl; intuition discriminate. }
  assert (Hc : In (ClassDecl (mkClass "A" "Order" [] [])) [ClassDecl (mkClass "A" "Order" [] []); EnumDecl DupEnum])
    by (left; reflexivity).
  assert (Hb : HasExplicitBase (mkClass "A" "Order" [] []) = true) by reflexivity.
  exact (conj N (conj Hc (conj Hb (Analyze_reports_bad_base _ _ N Hc Hb)))).
Defined.

(** X9: when the declared names are distinct and not primitive, a
    field of a declared class whose type is a user-defined name that is
    neither declared nor primitive gets [UndefinedFieldType], and
    [Analyze] fails. *)
Theorem Analyze_reports_undefined_field_type ast c f n :
  NoDup (PrimitiveNames ++ map decl_name ast) ->
  In (ClassDecl c) ast ->
  In f (c_fields c) ->
  f_type f = UserDefinedTypeSpec n ->
  ~ In n (PrimitiveNames ++ map decl_name ast) ->
  fst (RunAnalyze ast) = false
  /\ In (UndefinedFieldType (f_name f) (c_name c) n) (diagnostics (snd (RunAnalyze ast))).
Proof.
  intros N Hc Hf Ht Hn.
  apply (RunAnalyze_class_report ast c _ N Hc). apply in_app_iff. right.
  set (T := RegisterPrimitiveTypes [] ++ map (fun d => (decl_name d, decl_symbol d)) ast).
  assert (A : forall g, In g (c_fields c) -> Acc T (fun _ => True) (ValidateFieldType c g)).
  { intros g _. unfold ValidateFieldType. acc. }
  assert (E : Emits T (for_each_success (ValidateFieldType c) (c_fields c))
                (flat_map (fun g => emitted T (ValidateFieldType c g)) (c_fields c))).
  { apply Emits_for. intros g Hg. exact (proj1 (Acc_emits _ _ _ (A g Hg))). }
  rewrite (Emits_emitted _ _ _ E). apply in_flat_map. exists f. split; [exact Hf |].
  assert (Ef : Emits T (ValidateFieldType c f) [UndefinedFieldType (f_name f) (c_name c) n]).
  { unfold ValidateFieldType. rewrite Ht. apply Emits_get.
    unfold TypeExists. rewrite LookupType_notin; [apply Emits_report |].
    unfold T. rewrite decl_table_keys. exact Hn. }
  rewrite (Emits_emitted _ _ _ Ef). left. reflexivity.
Qed.

Lemma Analyze_reports_undefined_field_type_witness :
  NoDup (PrimitiveNames ++ map decl_name [ClassDecl (mkClass "A" "" [mkField (UserDefinedTypeSpec "Missing") "x" [] false None] [])])
  /\ In (ClassDecl (mkClass "A" "" [mkField (UserDefinedTypeSpec "Missing") "x" [] false None] []))
        [ClassDecl (mkClass "A" "" [mkField (UserDefinedTypeSpec "Missing") "x" [] false None] [])]
  /\ In (mkField (UserDefinedTypeSpec "Missing") "x" [] false None)
        (c_fields (mkClass "A" "" [mkField (UserDefinedTypeSpec "Missing") "x" [] false None] []))
  /\ f_type (mkField (UserDefinedTypeSpec "Missing") "x" [] false None) = UserDefinedTypeSpec "Missing"
  /\ ~ In "Missing" (PrimitiveNames ++ map decl_name [ClassDecl (mkClass "A" "" [mkField (UserDefinedTypeSpec "Missing") "x" [] false None] [])])
  /\ fst (RunAnalyze [ClassDecl (mkClass "A" "" [mkField (UserDefinedTypeSpec "Missing") "x" [] false None] [])]) = false
  /\ In (UndefinedFieldType (f_name (mkField (UserDefinedTypeSpec "Missing") "x" [] false None))
           (c_name (mkClass "A" "" [mkField (UserDefinedTypeSpec "Missing") "x" [] false None] [])) "Missing")
        (diagnostics (snd (RunAnalyze [ClassDecl (mkClass "A" "" [mkField (UserDefinedTypeSpec "Missing") "x" [] false None] [])]))).
Proof.
  assert (N : NoDup (PrimitiveNames ++ map decl_name [ClassDecl (mkClass "A" "" [mkField (UserDefinedTypeSpec "Missing") "x" [] false None] [])])).
  { unfold PrimitiveNames. simpl. repeat constructor; simpl; intuition discriminate. }
  assert (Hc : In (ClassDecl (mkClass "A" "" [mkField (UserDefinedTypeSpec "Missing") "x" [] false None] []))
                  [ClassDecl (mkClass "A" "" [mkField (UserDefinedTypeSpec "Missing") "x" [] false None] [])])
    by (left; reflexivity).
  assert (Hf : In (mkField (UserDefinedTypeSpec "Missing") "x" [] false None)
                  (c_fields (mkClass "A" "" [mkField (UserDefinedTypeSpec "Missing") "x" [] false None] [])))
    by (left; reflexivity).
  assert (Ht : f_type (mkField (UserDefinedTypeSpec "Missing") "x" [] false None) = UserDefinedTypeSpec "Missing")
    by reflexivity.
  assert (Hn : ~ In "Missing" (PrimitiveNames ++ map decl_name [ClassDecl (mkClass "A" "" [mkField (UserDefinedTypeSpec "Missing") "x" [] false None] [])])).
  { unfold PrimitiveNames. simpl. intuition discriminate. }
  exact (conj N (conj Hc (conj Hf (conj Ht (conj Hn (Analyze_reports_undefined_field_type _ _ _ _ N Hc Hf Ht Hn)))))).
Defined.

(** ** [Driver::Phase1] on a present tree *)

Lemma RunAnalyze_verdict ast :
  fst (RunAnalyze ast) = list_empty (diagnostics (snd (RunAnalyze ast))).
Proof.
  unfold RunAnalyze. destruct (Analyze_outcome ast initial_state) as [t' [_ E]]. rewrite E.
  destruct (list_empty (dup_decls _ ast)) eqn:Ed; simpl.
  - rewrite andb_true_r. reflexivity.
  - destruct (dup_decls _ ast); [discriminate | reflexivity].
Qed.

(** X11: for a present tree, [Phase1] returns the analyzer iff the
    analysis succeeded. On success it prints exactly the two status
    lines and leaves the driver's error flag as it was; on failure it
    prints the start line, at least one semantic error, then the
    failure line, and sets the flag. *)
Theorem Phase1_present_ast flag ast :
  Phase1 flag (Some ast) =
    (if fst (RunAnalyze ast)
     then (Some (snd (RunAnalyze ast)), flag, [StatusPhase1Started; StatusPhase1Completed])
     else (None, true, StatusPhase1Started :: map ErrSemantic (diagnostics (snd (RunAnalyze ast)))
                         ++ [ErrPhase1Failed]))
  /\ (fst (RunAnalyze ast) = false -> diagnostics (snd (RunAnalyze ast)) <> []).
Proof.
  pose proof (RunAnalyze_verdict ast) as V.
  unfold Phase1. destruct (RunAnalyze ast) as [ok st]. simpl in V |- *.
  destruct ok; simpl.
  - symmetry in V. apply list_empty_true in V. rewrite V. split; [reflexivity | discriminate].
  - split; [reflexivity |]. intros _ E. rewrite E in V. discriminate.
Qed.

(** ** The AST's own result types *)

(** X12: on an expression without field references or member accesses,
    whenever the analyzer's [InferExpressionType] gives a type other
    than [UNKNOWN] and [STRING], the AST's [GetResultType] gives the
    same type. (The two differ on string concatenation, which only the
    analyzer types, and on arithmetic with an [UNKNOWN] operand.) *)
Theorem GetResultType_agrees_with_inference mart tbl e c :
  field_free e = true ->
  InferExpressionType tbl e c <> UNKNOWN ->
  InferExpressionType tbl e c <> STRING ->
  GetResultType mart e = InferExpressionType tbl e c.
Proof.
  induction e using Expression_nested_ind; simpl; intros F H1 H2.
  - apply andb_true_iff in F. destruct F as [Fl Fr].
    destruct (is_bool_op op); [reflexivity |].
    pose proof (IHe1 Fl) as Gl. pose proof (IHe2 Fr) as Gr. clear IHe1 IHe2.
    revert Gl Gr H1 H2.
    generalize (InferExpressionType tbl e1 c) (InferExpressionType tbl e2 c)
               (GetResultType mart e1) (GetResultType mart e2).
    intros tl tr gl gr Gl Gr H1 H2.
    destruct tl, tr; cbn in H1, H2 |- *; try congruence; try (destruct op; congruence);
      try (rewrite Gl by discriminate); try (rewrite Gr by discriminate);
      cbn; first [reflexivity | destruct gl; reflexivity | destruct gr; reflexivity].
  - destruct op; [exact (IHe F H1 H2) | reflexivity].
  - discriminate.
  - discriminate.
  - reflexivity.
  - unfold FunctionCallResultType in H1. congruence.
  - exact (IHe F H1 H2).
Qed.

Lemma GetResultType_agrees_with_inference_witness :
  field_free (BinaryExpression (LiteralExpression (LitInt 1)) ADD
                (UnaryExpression NEG (LiteralExpression LitReal))) = true
  /\ InferExpressionType [] (BinaryExpression (LiteralExpression (LitInt 1)) ADD
                (UnaryExpression NEG (LiteralExpression LitReal))) TimeClass <> UNKNOWN
  /\ InferExpressionType [] (BinaryExpression (LiteralExpression (LitInt 1)) ADD
                (UnaryExpression NEG (LiteralExpression LitReal))) TimeClass <> STRING
  /\ GetResultType (fun _ _ => UNKNOWN)
       (BinaryExpression (LiteralExpression (LitInt 1)) ADD
          (UnaryExpression NEG (LiteralExpression LitReal)))
     = InferExpressionType [] (BinaryExpression (LiteralExpression (LitInt 1)) ADD
          (UnaryExpression NEG (LiteralExpression LitReal))) TimeClass.
Proof.
  assert (F : field_free (BinaryExpression (LiteralExpression (LitInt 1)) ADD
                (UnaryExpression NEG (LiteralExpression LitReal))) = true) by reflexivity.
  assert (H1 : InferExpressionType [] (BinaryExpression (LiteralExpression (LitInt 1)) ADD
                (UnaryExpression NEG (LiteralExpression LitReal))) TimeClass <> UNKNOWN)
    by (simpl; discriminate).
  assert (H2 : InferExpressionType [] (BinaryExpression (LiteralExpression (LitInt 1)) ADD
                (UnaryExpression NEG (LiteralExpression LitReal))) TimeClass <> STRING)
    by (simpl; discriminate).
  exact (conj F (conj H1 (conj H2 (GetResultType_agrees_with_inference _ _ _ _ F H1 H2)))).
Defined.

Lemma iter_base_add tbl n a b :
  iter_base tbl n (a + b) =
  match iter_base tbl n a with Some v => iter_base tbl v b | None => None end.
Proof.
  revert n. induction a as [| a IH]; intros n; [reflexivity |].
  simpl. destruct (base_of tbl n); [apply IH | reflexivity].
Qed.

Lemma iter_base_none_mono tbl n a m :
  iter_base tbl n a = None -> a <= m -> iter_base tbl n m = None.
Proof.
  intros H Hle. replace m with (a + (m - a)) by lia.
  rewrite iter_base_add, H. reflexivity.
Qed.

Lemma iter_base_periodic tbl n a v p :
  iter_base tbl n a = Some v -> iter_base tbl v p = Some v -> 0 < p ->
  forall m, iter_base tbl n m <> None.
Proof.
  intros Ha Hp Hpos.
  assert (T : forall t, iter_base tbl n (a + t * p) = Some v).
  { induction t as [| t IH]; [rewrite Nat.add_0_r; exact Ha |].
    replace (a + S t * p) with ((a + t * p) + p) by lia.
    rewrite iter_base_add, IH. exact Hp. }
  intros m Hm.
  assert (L : m <= a + m * p) by nia.
  pose proof (iter_base_none_mono tbl n m (a + m * p) Hm L) as Hn.
  rewrite T in Hn. discriminate.
Qed.

Lemma HasInheritanceCycle_fuel_true fuel tbl n vis w :
  HasInheritanceCycle_fuel fuel tbl n vis = Some (true, w) ->
  exists k v, iter_base tbl n k = Some v
    /\ (set_mem v vis = true \/ exists k', k' < k /\ iter_base tbl n k' = Some v).
Proof.
  revert n vis. induction fuel as [| f IH]; intros n vis H; [discriminate |].
  simpl in H. destruct (set_mem n vis) eqn:M.
  - exists 0, n. split; [reflexivity | left; exact M].
  - destruct (LookupType tbl n) as [[? | ? | c] |] eqn:L; try discriminate.
    destruct (HasExplicitBase c) eqn:B; [| discriminate].
    destruct (IH _ _ H) as [k [v [Hk Hv]]].
    assert (Bn : base_of tbl n = Some (c_baseType c)) by (unfold base_of; rewrite L, B; reflexivity).
    exists (S k), v. split; [simpl; rewrite Bn; exact Hk |].
    destruct Hv as [Hm | [k' [Hlt Hk']]].
    + apply set_mem_In in Hm. apply set_insert_In in Hm. destruct Hm as [-> | Hm].
      * right. exists 0. split; [lia | reflexivity].
      * left. apply set_mem_In. exact Hm.
    + right. exists (S k'). split; [lia | simpl; rewrite Bn; exact Hk'].
Qed.

Lemma HasInheritanceCycle_fuel_false fuel tbl n vis w :
  HasInheritanceCycle_fuel fuel tbl n vis = Some (false, w) ->
  exists k, iter_base tbl n k = None.
Proof.
  revert n vis. induction fuel as [| f IH]; intros n vis H; [discriminate |].
  simpl in H. destruct (set_mem n vis); [discriminate |].
  destruct (LookupType tbl n) as [[? | ? | c] |] eqn:L;
    try (exists 1; simpl; unfold base_of; rewrite L; reflexivity).
  destruct (HasExplicitBase c) eqn:B;
    [| exists 1; simpl; unfold base_of; rewrite L, B; reflexivity].
  destruct (IH _ _ H) as [k Hk]. exists (S k).
  simpl. unfold base_of. rewrite L, B. exact Hk.
Qed.

(** X15: [CheckInheritanceCycle] for a class [c] that the table holds under
    its own name reports [CircularInheritance] for [c] exactly when [c] has
    an explicit base and the chain of bases from there never ends, that is
    when it runs into a cycle, whether or not [c] lies on it.  Otherwise it
    reports nothing and succeeds. *)
Theorem CheckInheritanceCycle_reports_endless_chain t c :
  LookupType t (c_name c) = Some (SymClass c) ->
  (Emits t (CheckInheritanceCycle c) [CircularInheritance (c_name c)]
     /\ HasExplicitBase c = true
     /\ forall k, iter_base t (c_baseType c) k <> None)
  \/ (Emits t (CheckInheritanceCycle c) []
     /\ (HasExplicitBase c = false \/ exists k, iter_base t (c_baseType c) k = None)).
Proof.
  intros Hc. unfold CheckInheritanceCycle.
  destruct (HasExplicitBase c) eqn:B; [| right; split; [apply Emits_ret | left; reflexivity]].
  destruct (HasInheritanceCycle_fuel_enough (walk_fuel t) t (c_baseType c)
              (set_insert (c_name c) [])) as [[r w] E].
  { pose proof (unvisited_keys_le t (set_insert (c_name c) [])). unfold walk_fuel. lia. }
  assert (Hr : HasInheritanceCycle t (c_baseType c) (set_insert (c_name c) []) = r)
    by (unfold HasInheritanceCycle; rewrite E; reflexivity).
  destruct r.
  - left. split; [| split; [reflexivity |]].
    + apply Emits_get. cbv beta. rewrite Hr. apply Emits_report.
    + destruct (HasInheritanceCycle_fuel_true _ _ _ _ _ E) as [k [v [Hk [Hm | [k' [Hlt Hk']]]]]].
      * simpl in Hm. rewrite orb_false_r, String.eqb_eq in Hm. subst v.
        assert (H1 : iter_base t (c_name c) 1 = Some (c_baseType c))
          by (simpl; unfold base_of; rewrite Hc, B; reflexivity).
        apply (iter_base_periodic t (c_baseType c) 0 (c_baseType c) (k + 1)); [reflexivity | | lia].
        rewrite iter_base_add, Hk. exact H1.
      * apply (iter_base_periodic t (c_baseType c) k' v (k - k')); [exact Hk' | | lia].
        pose proof (iter_base_add t (c_baseType c) k' (k - k')) as A.
        replace (k' + (k - k')) with k in A by lia. rewrite Hk, Hk' in A. symmetry. exact A.
  - right. split.
    + apply Emits_get. cbv beta. rewrite Hr. apply Emits_ret.
    + right. exact (HasInheritanceCycle_fuel_false _ _ _ _ _ E).
Qed.

Lemma CheckInheritanceCycle_reports_endless_chain_witness :
  LookupType [("C", SymClass (mkClass "C" "A" [] [])); ("A", SymClass (mkClass "A" "B" [] []));
              ("B", SymClass (mkClass "B" "A" [] []))] "C"
    = Some (SymClass (mkClass "C" "A" [] []))
  /\ ((Emits [("C", SymClass (mkClass "C" "A" [] [])); ("A", SymClass (mkClass "A" "B" [] []));
              ("B", SymClass (mkClass "B" "A" [] []))]
         (CheckInheritanceCycle (mkClass "C" "A" [] [])) [CircularInheritance "C"]
       /\ HasExplicitBase (mkClass "C" "A" [] []) = true
       /\ forall k, iter_base [("C", SymClass (mkClass "C" "A" [] []));
                               ("A", SymClass (mkClass "A" "B" [] []));
                               ("B", SymClass (mkClass "B" "A" [] []))] "A" k <> None)
      \/ (Emits [("C", SymClass (mkClass "C" "A" [] [])); ("A", SymClass (mkClass "A" "B" [] []));
                 ("B", SymClass (mkClass "B" "A" [] []))]
            (CheckInheritanceCycle (mkClass "C" "A" [] [])) []
          /\ (HasExplicitBase (mkClass "C" "A" [] []) = false
              \/ exists k, iter_base [("C", SymClass (mkClass "C" "A" [] []));
                                      ("A", SymClass (mkClass "A" "B" [] []));
                                      ("B", SymClass (mkClass "B" "A" [] []))] "A" k = None))).
Proof.
  assert (H : LookupType [("C", SymClass (mkClass "C" "A" [] []));
                          ("A", SymClass (mkClass "A" "B" [] []));
                          ("B", SymClass (mkClass "B" "A" [] []))] "C"
              = Some (SymClass (mkClass "C" "A" [] []))) by reflexivity.
  exact (conj H (CheckInheritanceCycle_reports_endless_chain _ (mkClass "C" "A" [] []) H)).
Defined.
